(** * The HCL marshaller ([marshal.go]) as a shallow embedding

    The development follows the file top to bottom: the Go library pieces the
    marshaller leans on ([time.Duration.String], [math/big.Float],
    [reflect.Value], [sort.Slice], [fmt]), the AST, the encoder
    ([marshalToAST], [structToEntries], [fieldToAttr], [valueToValue],
    [valueToBlock], [sliceToBlocks]) and the renderer ([marshalEntries],
    [marshalAttribute], [marshalValue], [marshalMap], [marshalBlock],
    [marshalComments]).  Theorems come last. *)

From Stdlib Require Import ZArith List String Ascii Bool Lia.
From Stdlib Require Import QArith Qpower Permutation Sorted.
Import ListNotations.

Set Warnings "-register-all".

Local Open Scope string_scope.
Local Open Scope Z_scope.

(** ** Outcomes of a Go call

    A Go function of result type [(T, error)] either returns a value, returns
    a non-nil error, or panics.  [Diverge] is the model's own fourth outcome:
    the recursion budget of [structToEntries] ran out before the call
    returned (Go itself would keep recursing). *)

Inductive Result (A : Type) : Type :=
| Ok (a : A)
| Err (e : string)
| Panic (msg : string)
| Diverge.

Arguments Ok {A} a.
Arguments Err {A} e.
Arguments Panic {A} msg.
Arguments Diverge {A}.

Definition bind {A B : Type} (r : Result A) (k : A -> Result B) : Result B :=
  match r with
  | Ok a => k a
  | Err e => Err e
  | Panic m => Panic m
  | Diverge => Diverge
  end.

Notation "x <- r ;; k" := (bind r (fun x => k))
  (at level 61, r at next level, right associativity).
Notation "' p <- r ;; k" := (bind r (fun x => let p := x in k))
  (at level 61, p pattern, r at next level, right associativity).

(** ** Bytes and strings *)

Definition dquote : ascii := "034"%char.
Definition backslash : ascii := "092"%char.
Definition newline : string := String "010"%char EmptyString.

Definition digitChar (d : Z) : ascii := ascii_of_N (Z.to_N (48 + d)).

(** [strings.Join]. *)
Definition Join (elems : list string) (sep : string) : string :=
  String.concat sep elems.

(** Decimal text of a non-negative integer ([%d] of [fmt], [strconv.Itoa]);
    [fuel] bounds the number of digits. *)
Fixpoint decimalDigits (fuel : nat) (v : Z) (acc : string) : string :=
  match fuel with
  | O => acc
  | S n =>
      let acc' := String (digitChar (v mod 10)) acc in
      if v / 10 =? 0 then acc' else decimalDigits n (v / 10) acc'
  end.

Definition hexDigit (d : Z) : ascii :=
  if d <? 10 then digitChar d else ascii_of_N (Z.to_N (87 + d)).

(** [strconv.Quote], reached through the [%q] verb: the text between double
    quotes, with the quote, the backslash and the control bytes escaped.
    Bytes from 0x80 up are copied as they are, which is what [strconv.Quote]
    does for the UTF-8 encoding of a printable rune. *)
Definition quoteByte (c : ascii) : string :=
  let n := Z.of_N (N_of_ascii c) in
  if Ascii.eqb c dquote then String backslash (String dquote EmptyString)
  else if Ascii.eqb c backslash then String backslash (String backslash EmptyString)
  else if n =? 7 then String backslash "a"
  else if n =? 8 then String backslash "b"
  else if n =? 12 then String backslash "f"
  else if n =? 10 then String backslash "n"
  else if n =? 13 then String backslash "r"
  else if n =? 9 then String backslash "t"
  else if n =? 11 then String backslash "v"
  else if (n <? 32) || (n =? 127) then
    String backslash (String "x"%char
      (String (hexDigit (n / 16)) (String (hexDigit (n mod 16)) EmptyString)))
  else String c EmptyString.

Fixpoint quoteBody (s : string) : string :=
  match s with
  | EmptyString => EmptyString
  | String c rest => quoteByte c ++ quoteBody rest
  end.

Definition Quote (s : string) : string :=
  String dquote (quoteBody s ++ String dquote EmptyString).

(** ** [time.Duration.String] (Go's [time] package)

    A [Duration] is an [int64] count of nanoseconds.  [format] fills a
    32-byte buffer from its end; the model keeps the part already written,
    [buf[w:]], as the string [acc] and writes a byte by putting it in
    front. *)

Module time.

Definition Nanosecond : Z := 1.
Definition Microsecond : Z := 1000 * Nanosecond.
Definition Millisecond : Z := 1000 * Microsecond.
Definition Second : Z := 1000 * Millisecond.
Definition Minute : Z := 60 * Second.
Definition Hour : Z := 60 * Minute.

Definition uint64 (z : Z) : Z := z mod 2 ^ 64.

(** [fmtFrac]: the fraction [v / 10^prec] without its trailing zeros, and
    the decimal point when a digit was written; returns [v / 10^prec]. *)
Fixpoint fmtFrac_loop (prec : nat) (print : bool) (v : Z) (acc : string)
  : bool * Z * string :=
  match prec with
  | O => (print, v, acc)
  | S n =>
      let digit := v mod 10 in
      let print := print || negb (digit =? 0) in
      let acc := if print then String (digitChar digit) acc else acc in
      fmtFrac_loop n print (v / 10) acc
  end.

Definition fmtFrac (acc : string) (v : Z) (prec : nat) : string * Z :=
  let '(print, v', acc') := fmtFrac_loop prec false v acc in
  ((if print then String "."%char acc' else acc'), v').

(** [fmtInt]: the decimal digits of [v]; a [uint64] has at most 20. *)
Definition fmtInt (acc : string) (v : Z) : string :=
  decimalDigits 20 v acc.

Definition format (d : Z) : string :=
  let u := uint64 d in
  let neg := d <? 0 in
  let u := if neg then uint64 (- u) else u in
  let body :=
    if u <? uint64 Second then
      (* below a second: smaller units, like 1.2ms *)
      let acc := "s" in
      if u =? 0 then "0s"
      else
        let '(prec, acc) :=
          if u <? uint64 Microsecond then (0%nat, String "n"%char acc)
          else if u <? uint64 Millisecond then
            (* the two bytes of the micro sign, 0xC2 0xB5 *)
            (3%nat, String "194"%char (String "181"%char acc))
          else (6%nat, String "m"%char acc) in
        let '(acc, u) := fmtFrac acc u prec in
        fmtInt acc u
    else
      let acc := "s" in
      let '(acc, u) := fmtFrac acc u 9 in
      (* u is now integer seconds *)
      let acc := fmtInt acc (u mod 60) in
      let u := u / 60 in
      (* u is now integer minutes *)
      if 0 <? u then
        let acc := fmtInt (String "m"%char acc) (u mod 60) in
        let u := u / 60 in
        (* u is now integer hours *)
        if 0 <? u then fmtInt (String "h"%char acc) u else acc
      else acc in
  if neg then String "-"%char body else body.

Definition Duration_String (d : Z) : string := format d.

End time.

(** ** [math/big.Float] (Go's [math/big] package)

    The value of a finite [Float] is [(-1)^neg * 0.mant * 2^exp]; the
    mantissa is normalised (top bit set).  Every [Float] the marshaller
    builds has a mantissa of one 64-bit word, so [mant] is that word and the
    value is [mant * 2^(exp - 64)]. *)

Module big.

Inductive form : Type := zero | finite | inf.

Record Float : Type := mkFloat {
  prec : Z;
  neg : bool;
  fform : form;
  mant : Z;
  exp : Z
}.

Definition MaxExp : Z := 2 ^ 31 - 1.

(** [bits.LeadingZeros64]. *)
Definition LeadingZeros64 (x : Z) : Z :=
  if x =? 0 then 64 else 63 - Z.log2 x.

(** [Float.round] with [sbit = 0] and mode [ToNearestEven], for a
    one-word mantissa ([m = 1], [bits = 64], [n = 1]). *)
Definition round (z : Float) : Float :=
  match fform z with
  | finite =>
      let bits := 64 in
      if bits <=? prec z then z (* mantissa fits => nothing to do *)
      else
        let r := bits - prec z - 1 in        (* rounding bit position *)
        let rbit := Z.testbit (mant z) r in
        let sbit := negb (mant z mod 2 ^ r =? 0) in  (* mant.sticky(r) *)
        let ntz := 64 - prec z in
        let lsb := 2 ^ ntz in
        let clear (m : Z) := m - m mod lsb in (* mant[0] &^= lsb - 1 *)
        if rbit || sbit then
          let inc := rbit && (sbit || Z.testbit (mant z) ntz) in
          if inc then
            let s := mant z + lsb in
            if 2 ^ 64 <=? s then
              (* mantissa overflow => adjust exponent *)
              if MaxExp <=? exp z then
                mkFloat (prec z) (neg z) inf (s mod 2 ^ 64) (exp z)
              else
                mkFloat (prec z) (neg z) finite
                  (clear (Z.lor ((s mod 2 ^ 64) / 2) (2 ^ 63))) (exp z + 1)
            else mkFloat (prec z) (neg z) finite (clear s) (exp z)
          else mkFloat (prec z) (neg z) finite (clear (mant z)) (exp z)
        else mkFloat (prec z) (neg z) finite (clear (mant z)) (exp z)
  | _ => z
  end.

(** [Float.setBits64]. *)
Definition setBits64 (z : Float) (neg : bool) (x : Z) : Float :=
  let p := if prec z =? 0 then 64 else prec z in
  if x =? 0 then mkFloat p neg zero (mant z) (exp z)
  else
    let s := LeadingZeros64 x in
    let z' := mkFloat p neg finite (Z.shiftl x s mod 2 ^ 64) (64 - s) in
    if p <? 64 then round z' else z'.

(** [Float.SetInt64]: [u := x; if u < 0 { u = -u }] on [int64], then
    [uint64(u)] (so the most negative [int64] gives [2^63]). *)
Definition SetInt64 (z : Float) (x : Z) : Float :=
  let u := if x <? 0 then - x else x in
  setBits64 z (x <? 0) (u mod 2 ^ 64).

(** [Float.SetUint64]. *)
Definition SetUint64 (z : Float) (x : Z) : Float :=
  setBits64 z false x.

(** A [float64]: [(-1)^sign * m * 2^e] with [0 <= m < 2^53], an infinity,
    or a NaN. *)
Inductive float64 : Type :=
| F64 (sign : bool) (m : Z) (e : Z)
| F64Inf (sign : bool)
| F64NaN.

(** [Float.SetFloat64]; [math.Frexp] left-aligns the mantissa. *)
Definition SetFloat64 (z : Float) (x : float64) : Result Float :=
  let p := if prec z =? 0 then 53 else prec z in
  match x with
  | F64NaN => Panic "Float.SetFloat64(NaN)"
  | F64Inf s => Ok (mkFloat p s inf (mant z) (exp z))
  | F64 s m e =>
      if m =? 0 then Ok (mkFloat p s zero (mant z) (exp z))
      else
        let lz := LeadingZeros64 m in
        let z' := mkFloat p s finite (Z.shiftl m lz mod 2 ^ 64) (e + 64 - lz) in
        Ok (if p <? 53 then round z' else z')
  end.

(** [new(Float)]: the zero value, precision 0. *)
Definition newFloat : Float := mkFloat 0 false zero 0 0.

(** [NewFloat(x)]: [new(Float).SetFloat64(x)], hence precision 53. *)
Definition NewFloat (x : float64) : Result Float :=
  match x with
  | F64NaN => Panic "NewFloat(NaN)"
  | _ => SetFloat64 newFloat x
  end.

(** The rational a [Float] stands for ([None] for an infinity). *)
Definition Float_Q (z : Float) : option Q :=
  match fform z with
  | zero => Some 0%Q
  | finite =>
      let s := if neg z then (-1)%Z else 1%Z in
      Some (Qmult (inject_Z (s * mant z)) (Qpower 2 (exp z - 64)))
  | inf => None
  end.

End big.

(** ** [reflect.Value] (Go's [reflect] package)

    A runtime value as the marshaller sees it through reflection: its type's
    name, what its method set offers, and the data of its kind. *)

Module reflect.

Inductive Kind : Type :=
| Invalid | Bool | Int | Int8 | Int16 | Int32 | Int64
| Uint | Uint8 | Uint16 | Uint32 | Uint64 | Uintptr
| Float32 | Float64 | Complex64 | Complex128
| Array | Chan | Func | Interface | Map | Ptr | Slice | String | Struct
| UnsafePointer.

Definition Kind_eqb (a b : Kind) : bool :=
  match a, b with
  | Invalid, Invalid | Bool, Bool | Int, Int | Int8, Int8 | Int16, Int16
  | Int32, Int32 | Int64, Int64 | Uint, Uint | Uint8, Uint8 | Uint16, Uint16
  | Uint32, Uint32 | Uint64, Uint64 | Uintptr, Uintptr | Float32, Float32
  | Float64, Float64 | Complex64, Complex64 | Complex128, Complex128
  | Array, Array | Chan, Chan | Func, Func | Interface, Interface | Map, Map
  | Ptr, Ptr | Slice, Slice | String, String | Struct, Struct
  | UnsafePointer, UnsafePointer => true
  | _, _ => false
  end.

(** A [reflect.Type], as far as the marshaller looks at it: [t.String()],
    [t.Kind()], and [==] between types. *)
Record Type_ : Type := mkType {
  Type_String : string;
  Type_Kind : Kind
}.

Definition Type_eqb (a b : Type_) : bool :=
  String.eqb (Type_String a) (Type_String b)
  && Kind_eqb (Type_Kind a) (Type_Kind b).

(** What a value carries besides its data: the name of its type, and the
    outcome of its [MarshalText] and [MarshalJSON] methods when its type (or
    the pointer to it) has them. *)
Record meta : Type := mkMeta {
  tname : string;
  MarshalText : option (Result string);
  MarshalJSON : option (Result string)
}.

Inductive intSize : Type := I0 | I8 | I16 | I32 | I64.
Inductive floatSize : Type := F32 | F64.
Inductive otherKind : Type :=
| OUintptr | OComplex64 | OComplex128 | OArray | OChan | OFunc | OInterface
| OUnsafePointer.

Inductive Value : Type :=
| VBool (m : meta) (b : bool)
| VInt (m : meta) (k : intSize) (i : Z)
| VUint (m : meta) (k : intSize) (u : Z)
| VFloat (m : meta) (k : floatSize) (f : big.float64)
| VString (m : meta) (s : string)
(* a slice: nil or not, and its elements *)
| VSlice (m : meta) (isnil : bool) (elems : list Value)
(* a map: nil or not, and its keys with their values, in the order MapKeys
   happens to return the keys *)
| VMap (m : meta) (isnil : bool) (entries : list (Value * Value))
(* a struct and the values of its fields *)
| VStruct (m : meta) (fields : list Value)
(* a time.Time, with the text Format(time.RFC3339) gives for it *)
| VTime (m : meta) (iszero : bool) (rfc3339 : string)
(* a pointer: nil, or the value Elem() gives *)
| VPtr (m : meta) (target : option Value)
(* any other kind *)
| VOther (m : meta) (k : otherKind) (iszero : bool).

Definition meta_of (v : Value) : meta :=
  match v with
  | VBool m _ | VInt m _ _ | VUint m _ _ | VFloat m _ _ | VString m _
  | VSlice m _ _ | VMap m _ _ | VStruct m _ | VTime m _ _ | VPtr m _
  | VOther m _ _ => m
  end.

Definition Value_Kind (v : Value) : Kind :=
  match v with
  | VBool _ _ => Bool
  | VInt _ I0 _ => Int | VInt _ I8 _ => Int8 | VInt _ I16 _ => Int16
  | VInt _ I32 _ => Int32 | VInt _ I64 _ => Int64
  | VUint _ I0 _ => Uint | VUint _ I8 _ => Uint8 | VUint _ I16 _ => Uint16
  | VUint _ I32 _ => Uint32 | VUint _ I64 _ => Uint64
  | VFloat _ F32 _ => Float32 | VFloat _ F64 _ => Float64
  | VString _ _ => String
  | VSlice _ _ _ => Slice
  | VMap _ _ _ => Map
  | VStruct _ _ => Struct
  | VTime _ _ _ => Struct
  | VPtr _ _ => Ptr
  | VOther _ OUintptr _ => Uintptr
  | VOther _ OComplex64 _ => Complex64
  | VOther _ OComplex128 _ => Complex128
  | VOther _ OArray _ => Array
  | VOther _ OChan _ => Chan
  | VOther _ OFunc _ => Func
  | VOther _ OInterface _ => Interface
  | VOther _ OUnsafePointer _ => UnsafePointer
  end.

(** [v.Type()]. *)
Definition Value_Type (v : Value) : Type_ :=
  mkType (tname (meta_of v)) (Value_Kind v).

(** [reflect.ValueOf(x).Kind()] for an interface value [x]: [None] is the
    nil interface, whose [reflect.Value] is the zero Value, and the zero
    Value is also what [Elem] gives for a nil pointer. *)
Definition Kind_of (v : option Value) : Kind :=
  match v with
  | Some x => Value_Kind x
  | None => Invalid
  end.

(** [rv.Elem()] on a value of kind [Ptr]. *)
Definition Elem (v : Value) : option Value :=
  match v with
  | VPtr _ target => target
  | _ => None
  end.

(** The [%T] verb. *)
Definition verbT (v : option Value) : string :=
  match v with
  | Some x => tname (meta_of x)
  | None => "<nil>"
  end.

(** [v.String()]: the string of a value of kind [String], and
    ["<T Value>"] for a value of any other type [T]; it never panics. *)
Definition Value_String (v : Value) : string :=
  match v with
  | VString _ s => s
  | _ => "<" ++ tname (meta_of v) ++ " Value>"
  end.

(** [v.IsZero()]. *)
Fixpoint IsZero (v : Value) : bool :=
  match v with
  | VBool _ b => negb b
  | VInt _ _ i => i =? 0
  | VUint _ _ u => u =? 0
  | VFloat _ _ f =>
      (* math.Float64bits(v.Float()) == 0: negative zero is not zero *)
      match f with
      | big.F64 false 0 _ => true
      | _ => false
      end
  | VString _ s => (String.length s =? 0)%nat
  | VSlice _ isnil _ => isnil
  | VMap _ isnil _ => isnil
  | VStruct _ fields => forallb IsZero fields
  | VTime _ iszero _ => iszero
  | VPtr _ target => match target with None => true | Some _ => false end
  | VOther _ _ iszero => iszero
  end.

End reflect.

(** A struct field as [flattenFields] hands it over: [reflect.StructField]
    and the field's value. *)
Record StructField : Type := mkStructField {
  StructField_Name : string;
  StructField_Tag : string;
  StructField_Anonymous : bool
}.

Record field : Type := mkField {
  field_t : StructField;
  field_v : reflect.Value
}.

(** Modelled from the spec: the struct [tag], declared outside [marshal.go].
    The Tag Interpreter returns a structured descriptor
    {name, is-label, is-block, is-optional, comment lines}; [marshal.go] reads
    [tag.name], [tag.label], [tag.block], [tag.optional] and calls
    [tag.comments()]. *)
Record tag : Type := mkTag {
  tag_name : string;
  tag_label : bool;
  tag_block : bool;
  tag_optional : bool;
  tag_comments : list string
}.

(** ** The AST

    Modelled from the spec: the node types, declared outside [marshal.go];
    the fields are those the composite literals and selectors of
    [marshal.go] name.  A pointer field that may be nil is an [option]. *)

Inductive Value : Type :=
  mkValue {
    Value_Str : option string;
    Value_Number : option big.Float;
    Value_Bool : option bool;
    Value_List : list Value;
    Value_HaveList : bool;
    Value_Map : list MapEntry;
    Value_HaveMap : bool
  }
with MapEntry : Type :=
  mkMapEntry {
    MapEntry_Key : Value;
    MapEntry_Value : Value;
    MapEntry_Comments : list string
  }.

Record Attribute : Type := mkAttribute {
  Attribute_Key : string;
  Attribute_Value : Value
}.

Inductive Entry : Type :=
  mkEntry {
    Entry_Attribute : option Attribute;
    Entry_Block : option Block;
    Entry_Comments : list string
  }
with Block : Type :=
  mkBlock {
    Block_Name : string;
    Block_Labels : list string;
    Block_Body : list Entry
  }.

Record AST : Type := mkAST {
  AST_Entries : list Entry
}.

(** The composite literals of [valueToValue]: the fields not named are
    zero. *)
Definition Value_ofStr (s : string) : Value :=
  mkValue (Some s) None None [] false [] false.
Definition Value_ofNumber (n : big.Float) : Value :=
  mkValue None (Some n) None [] false [] false.
Definition Value_ofBool (b : bool) : Value :=
  mkValue None None (Some b) [] false [] false.
Definition Value_ofList (list : list Value) : Value :=
  mkValue None None None list true [] false.
Definition Value_ofMap (entries : list MapEntry) : Value :=
  mkValue None None None [] false entries true.

(** ** [sort.Slice]

    Sorts by the [less] function it is given and promises no stability; the
    model is an insertion sort.  For keys that are pairwise different the
    outcome does not depend on the algorithm ([sorted_perm_unique] below). *)

Section Sort.
Context {A : Type} (less : A -> A -> bool).

Fixpoint insertSorted (x : A) (l : list A) : list A :=
  match l with
  | [] => [x]
  | y :: l' => if less y x then y :: insertSorted x l' else x :: y :: l'
  end.

Fixpoint sortSlice (l : list A) : list A :=
  match l with
  | [] => []
  | x :: l' => insertSorted x (sortSlice l')
  end.
End Sort.

(** ** The encoder *)

(** Modelled from the spec: [durationType] and [timeType], package variables
    declared outside [marshal.go]: the types of a duration-like
    numeric-with-unit value ([time.Duration], an [int64]) and of a calendar
    timestamp ([time.Time], a struct). *)
Definition durationType : reflect.Type_ :=
  reflect.mkType "time.Duration" reflect.Int64.
Definition timeType : reflect.Type_ :=
  reflect.mkType "time.Time" reflect.Struct.

Inductive interfaceType : Type :=
| textMarshalerInterface
| jsonMarshalerInterface.

(** Modelled from the spec: [implements], declared outside [marshal.go]:
    whether the value's type exposes the text-encoding, respectively the
    JSON-encoding capability.  The Go function returns the value to call the
    method on; the model returns what that call gives. *)
Definition implements (v : reflect.Value) (i : interfaceType)
  : option (Result string) :=
  match i with
  | textMarshalerInterface => reflect.MarshalText (reflect.meta_of v)
  | jsonMarshalerInterface => reflect.MarshalJSON (reflect.meta_of v)
  end.

(** The loop of the [reflect.Slice] case: encode each element, stop at the
    first error. *)
Definition encodeElems (enc : reflect.Value -> Result Value)
  : list reflect.Value -> list Value -> Result (list Value) :=
  fix loop (elems : list reflect.Value) (list : list Value) :=
    match elems with
    | [] => Ok list
    | el :: rest =>
        elv <- enc el ;;
        loop rest (list ++ [elv])%list
    end.

(** [sorted[i].String() < sorted[j].String()] on keys that travel with what
    [valueToValue(v.MapIndex(key))] gives for them. *)
Definition keyLess {B : Type} (a b : reflect.Value * B) : bool :=
  String.ltb (reflect.Value_String (fst a)) (reflect.Value_String (fst b)).

(** The second loop of the [reflect.Map] case, over the sorted keys. *)
Fixpoint encodeMapEntries (sorted : list (reflect.Value * Result Value))
  (entries : list MapEntry) : Result (list MapEntry) :=
  match sorted with
  | [] => Ok entries
  | (key, encoded) :: rest =>
      value <- encoded ;;
      let keyStr := reflect.Value_String key in
      encodeMapEntries rest
        (entries ++ [mkMapEntry (Value_ofStr keyStr) value []])%list
  end.

Fixpoint valueToValue (v : reflect.Value) : Result Value :=
  (* Special cased types. *)
  let t := reflect.Value_Type v in
  if reflect.Type_eqb t durationType then
    match v with
    | reflect.VInt _ _ d => Ok (Value_ofStr (time.Duration_String d))
    | _ => Panic "interface conversion: not a time.Duration"
    end
  else
  match implements v textMarshalerInterface with
  | Some tm =>
      b <- tm ;;
      Ok (Value_ofStr b)
  | None =>
  match implements v jsonMarshalerInterface with
  | Some jm =>
      b <- jm ;;
      Ok (Value_ofStr b)
  | None =>
  (* switch t.Kind() *)
  match v with
  | reflect.VString m s =>
      (* v.Interface().(string): the assertion holds for the type string
         itself, not for a named type of kind String *)
      if String.eqb (reflect.tname m) "string" then Ok (Value_ofStr s)
      else Panic ("interface conversion: interface {} is "
                  ++ reflect.tname m ++ ", not string")
  | reflect.VSlice _ _ elems =>
      list <- encodeElems valueToValue elems [] ;;
      Ok (Value_ofList list)
  | reflect.VMap _ _ kvs =>
      (* the keys of v.MapKeys(), each with what
         valueToValue(v.MapIndex(key)) gives when its turn comes *)
      let sorted :=
        sortSlice keyLess
          (List.map (fun kv => let '(key, x) := kv in (key, valueToValue x))
                    kvs) in
      entries <- encodeMapEntries sorted [] ;;
      Ok (Value_ofMap entries)
  | reflect.VFloat _ _ f =>
      n <- big.NewFloat f ;;
      Ok (Value_ofNumber n)
  | reflect.VInt _ _ i =>
      n <- big.NewFloat (big.F64 false 0 0) ;;
      Ok (Value_ofNumber (big.SetInt64 n i))
  | reflect.VUint _ _ u =>
      n <- big.NewFloat (big.F64 false 0 0) ;;
      Ok (Value_ofNumber (big.SetUint64 n u))
  | reflect.VBool _ b => Ok (Value_ofBool b)
  | _ =>
      (* default: switch t *)
      if reflect.Type_eqb t timeType then
        match v with
        | reflect.VTime _ _ s => Ok (Value_ofStr s)
        | _ => Panic "interface conversion: not a time.Time"
        end
      else Panic (reflect.Type_String t)
  end
  end
  end.

Section Encoder.

(** The collaborators declared outside [marshal.go]: the Field Enumerator,
    the Tag Interpreter and the two schema encoders. *)
Variable flattenFields : reflect.Value -> Result (list field).
Variable parseTag : reflect.Type_ -> StructField -> tag.
Variable sliceToBlockSchema : reflect.Type_ -> tag -> Result Block.
Variable attrSchema : reflect.Type_ -> Result Value.

Definition fieldToAttr (field : field) (tag : tag) (schema : bool)
  : Result Attribute :=
  value <- (if schema then attrSchema (reflect.Value_Type (field_v field))
            else valueToValue (field_v field)) ;;
  Ok (mkAttribute (tag_name tag) value).

(** The mutual recursion of [structToEntries], [valueToBlock] and
    [sliceToBlocks] is tied through [ste], the recursive call. *)
Section Body.
Variable ste : reflect.Value -> bool -> Result (list Entry * list string).

Definition valueToBlock_body (v : reflect.Value) (tag : tag) (schema : bool)
  : Result Block :=
  '(body, labels) <- ste v schema ;;
  Ok (mkBlock (tag_name tag) labels body).

Fixpoint sliceToBlocks_loop (elems : list reflect.Value)
  (tag : tag) (blocks : list Block) : Result (list Block) :=
  match elems with
  | [] => Ok blocks
  | el :: rest =>
      block <- valueToBlock_body el tag false ;;
      sliceToBlocks_loop rest tag (blocks ++ [block])%list
  end.

Definition sliceToBlocks_body (sv : reflect.Value) (tag : tag)
  : Result (list Block) :=
  match sv with
  | reflect.VSlice _ _ elems => sliceToBlocks_loop elems tag []
  | _ => Panic "reflect: call of reflect.Value.Len on a non-slice Value"
  end.

(** One turn of the loop over the fields, on the [entries] and [labels]
    gathered so far.  In schema mode the [err] of [sliceToBlockSchema]
    is declared by [:=] inside the [if schema] block: it shadows the
    function's [err], which is still nil at the [if err != nil] that
    follows. *)
Definition structToEntries_field (t : reflect.Type_) (schema : bool)
  (field : field) (acc : list Entry * list string)
  : Result (list Entry * list string) :=
  let '(entries, labels) := acc in
  let tag := parseTag t (field_t field) in
  let comments := tag_comments tag in
  if tag_label tag then
    if schema then Ok (entries, (labels ++ [tag_name tag])%list)
    else Ok (entries, (labels ++ [reflect.Value_String (field_v field)])%list)
  else if tag_block tag then
    if reflect.Kind_eqb (reflect.Value_Kind (field_v field)) reflect.Slice
    then
      blocks <-
        (if schema then
           match sliceToBlockSchema (reflect.Value_Type (field_v field)) tag with
           | Ok block => Ok [block]
           | Err _ => Ok []
           | Panic msg => Panic msg
           | Diverge => Diverge
           end
         else sliceToBlocks_body (field_v field) tag) ;;
      Ok ((entries ++ List.map (fun block => mkEntry None (Some block) comments) blocks)%list,
          labels)
    else
      block <- valueToBlock_body (field_v field) tag schema ;;
      Ok ((entries ++ [mkEntry None (Some block) comments])%list, labels)
  else if tag_optional tag && reflect.IsZero (field_v field) && negb schema
  then Ok (entries, labels)
  else
    attr <- fieldToAttr field tag schema ;;
    Ok ((entries ++ [mkEntry (Some attr) None comments])%list, labels).

Fixpoint structToEntries_loop (t : reflect.Type_) (schema : bool)
  (fields : list field) (acc : list Entry * list string)
  : Result (list Entry * list string) :=
  match fields with
  | [] => Ok acc
  | field :: rest =>
      acc' <- structToEntries_field t schema field acc ;;
      structToEntries_loop t schema rest acc'
  end.
End Body.

(** [fuel] bounds the depth of nested blocks. *)
Fixpoint structToEntries (fuel : nat) (v : reflect.Value) (schema : bool)
  : Result (list Entry * list string) :=
  match fuel with
  | O => Diverge
  | S fuel' =>
      fields <- flattenFields v ;;
      structToEntries_loop (structToEntries fuel') (reflect.Value_Type v)
        schema fields ([], [])
  end.

Definition valueToBlock (fuel : nat) := valueToBlock_body (structToEntries fuel).
Definition sliceToBlocks (fuel : nat) := sliceToBlocks_body (structToEntries fuel).

Definition marshalToAST (fuel : nat) (v : option reflect.Value) (schema : bool)
  : Result AST :=
  let rv := v in
  if negb (reflect.Kind_eqb (reflect.Kind_of rv) reflect.Ptr) then
    Err ("expected a pointer to a struct, not " ++ reflect.verbT v)
  else
    let rv := match rv with Some p => reflect.Elem p | None => None end in
    match rv with
    | Some s =>
        if negb (reflect.Kind_eqb (reflect.Value_Kind s) reflect.Struct) then
          Err ("expected a pointer to a struct, not " ++ reflect.verbT v)
        else
          '(entries, labels) <- structToEntries fuel s schema ;;
          if (0 <? List.length labels)%nat then
            Err ("unexpected labels " ++ Join labels ", " ++ " at top level")
          else Ok (mkAST entries)
    | None => Err ("expected a pointer to a struct, not " ++ reflect.verbT v)
    end.

(** [MarshalToAST]. *)
Definition MarshalToAST (fuel : nat) (v : option reflect.Value) : Result AST :=
  marshalToAST fuel v false.

End Encoder.

(** ** The renderer

    The [io.Writer] is modelled by the text written to it so far; every
    function takes it and returns it extended, next to its Go result.  The
    source drops what [fmt.Fprintf] and [fmt.Fprintln] return, so a write has
    no outcome of its own. *)

Section Renderer.

(** The [String] method of the AST's [Value], declared outside
    [marshal.go]: the [%s] verb calls it. *)
Variable valueText : Value -> string.

Definition marshalComments (w : string) (indent : string)
  (comments : list string) : string :=
  fold_left (fun w comment => w ++ indent ++ comment ++ newline) comments w.

(** [indent[:len(indent)-2]]. *)
Definition dropLast2 (indent : string) : Result string :=
  if (String.length indent <? 2)%nat then
    Panic "runtime error: slice bounds out of range"
  else Ok (substring 0 (String.length indent - 2) indent).

(** [marshalMap], with the call back into [marshalValue] as [mv]. *)
Definition marshalMap_body
  (mv : string -> string -> Value -> string * Result unit)
  (w : string) (indent : string) (entries : list MapEntry)
  : string * Result unit :=
  let w := w ++ "{" ++ newline in
  let fix loop (entries : list MapEntry) (w : string) : string * Result unit :=
    match entries with
    | [] =>
        match dropLast2 indent with
        | Ok outer => (w ++ outer ++ "}", Ok tt)
        | Err e => (w, Err e)
        | Panic msg => (w, Panic msg)
        | Diverge => (w, Diverge)
        end
    | mkMapEntry key value comments :: rest =>
        let w := marshalComments w indent comments in
        let w := w ++ indent ++ valueText key ++ ": " in
        match mv w (indent ++ "  ") value with
        | (w, Ok _) => loop rest (w ++ "," ++ newline)
        | (w, other) => (w, other)
        end
    end in
  loop entries w.

Fixpoint marshalValue (w : string) (indent : string) (value : Value)
  {struct value} : string * Result unit :=
  match value with
  | mkValue _ _ _ _ _ map haveMap =>
      if haveMap then marshalMap_body marshalValue w (indent ++ "  ") map
      else (w ++ valueText value, Ok tt)
  end.


Definition marshalAttribute (w : string) (indent : string)
  (attribute : Attribute) : string * Result unit :=
  let w := w ++ indent ++ Attribute_Key attribute ++ " = " in
  match marshalValue w indent (Attribute_Value attribute) with
  | (w, Ok _) => (w ++ newline, Ok tt)
  | (w, other) => (w, other)
  end.

(** The loop of [marshalEntries] over [entries[i:]], with [n] the length
    of [entries] and [mb] the call into [marshalBlock]. *)
Definition marshalEntries_loop
  (mb : string -> string -> Block -> string * Result unit)
  (indent : string) (n : Z)
  : Z -> list Entry -> string -> string * Result unit :=
  fix loop (i : Z) (entries : list Entry) (w : string) :=
    match entries with
    | [] => (w, Ok tt)
    | mkEntry attribute block comments :: rest =>
        let w := marshalComments w indent comments in
        match block, attribute with
        | Some block, _ =>
            match mb w indent block with
            | (w, Ok _) =>
                let w := if negb (i =? n - 1) then w ++ newline else w in
                loop (i + 1) rest w
            | (w, other) => (w, other)
            end
        | None, Some attribute =>
            match marshalAttribute w indent attribute with
            | (w, Ok _) => loop (i + 1) rest w
            | (w, other) => (w, other)
            end
        | None, None => (w, Panic "??")
        end
    end.

Definition marshalEntries_body
  (mb : string -> string -> Block -> string * Result unit)
  (w : string) (indent : string) (entries : list Entry)
  : string * Result unit :=
  marshalEntries_loop mb indent (Z.of_nat (List.length entries)) 0 entries w.

Fixpoint marshalBlock (w : string) (indent : string) (block : Block)
  {struct block} : string * Result unit :=
  match block with
  | mkBlock name labels body =>
      let w := w ++ indent ++ name ++ " " in
      let w := fold_left (fun w label => w ++ Quote label ++ " ") labels w in
      let w := w ++ "{" ++ newline in
      match marshalEntries_body marshalBlock w (indent ++ "  ") body with
      | (w, Ok _) => (w ++ indent ++ "}" ++ newline, Ok tt)
      | (w, other) => (w, other)
      end
  end.

Definition marshalEntries := marshalEntries_body marshalBlock.

(** [MarshalASTToWriter]. *)
Definition MarshalASTToWriter (ast : AST) (w : string) : string * Result unit :=
  marshalEntries w EmptyString (AST_Entries ast).

(** [MarshalAST]: the bytes of a fresh buffer, and the error. *)
Definition MarshalAST (ast : AST) : string * Result unit :=
  MarshalASTToWriter ast EmptyString.

End Renderer.

(** [Marshal]: [MarshalToAST], then [MarshalAST]; the bytes are nil when
    [MarshalToAST] fails. *)
Definition Marshal
  (flattenFields : reflect.Value -> Result (list field))
  (parseTag : reflect.Type_ -> StructField -> tag)
  (sliceToBlockSchema : reflect.Type_ -> tag -> Result Block)
  (attrSchema : reflect.Type_ -> Result Value)
  (valueText : Value -> string)
  (fuel : nat) (v : option reflect.Value) : string * Result unit :=
  match MarshalToAST flattenFields parseTag sliceToBlockSchema attrSchema fuel v with
  | Ok ast => MarshalAST valueText ast
  | Err e => (EmptyString, Err e)
  | Panic msg => (EmptyString, Panic msg)
  | Diverge => (EmptyString, Diverge)
  end.

(** ** The text of a [Value] *)

(** The decimal text of a [big.Float]: the integer part, and the fraction
    without trailing zeros when there is one. *)
Definition Number_text (z : big.Float) : string :=
  match big.fform z with
  | big.zero => "0"
  | big.inf => if big.neg z then "-Inf" else "+Inf"
  | big.finite =>
      let e := big.exp z - 64 in
      let sign := if big.neg z then "-" else EmptyString in
      if 0 <=? e then
        sign ++ decimalDigits (Z.to_nat (big.exp z)) (big.mant z * 2 ^ e) EmptyString
      else
        let k := - e in
        let '(frac, _) :=
          time.fmtFrac EmptyString ((big.mant z mod 2 ^ k) * 5 ^ k) (Z.to_nat k) in
        sign ++ decimalDigits (Z.to_nat (Z.max 1 (big.exp z))) (big.mant z / 2 ^ k) frac
  end.

(** Modelled from the spec: the [String] method of [Value], declared outside
    [marshal.go].  The Value's canonical textual form is: quoted string,
    minimal decimal for Number, bare [true]/[false] for Bool,
    [[v1, v2, ...]] for List.  The spec gives no one-line text for a Map
    (the renderer writes maps itself), so a Map has the empty text here. *)
Fixpoint Value_text (v : Value) : string :=
  match v with
  | mkValue (Some s) _ _ _ _ _ _ => Quote s
  | mkValue None (Some n) _ _ _ _ _ => Number_text n
  | mkValue None None (Some b) _ _ _ _ => if b then "true" else "false"
  | mkValue None None None list true _ _ =>
      "[" ++ Join (List.map Value_text list) ", " ++ "]"
  | mkValue None None None _ false _ _ => EmptyString
  end.

(** ** Stand-ins for the collaborators

    To run the encoder on a concrete record the examples below use an
    enumerator that looks the record's type up in a table of field lists
    (and finds no field for a type the table does not name), and a tag
    interpreter that takes the field's name as the key and looks for the
    words [label], [block] and [optional] in the raw tag. *)

Definition fieldsByType (table : list (string * list field))
  : reflect.Value -> Result (list field) :=
  fun v =>
    match find (fun row => String.eqb (fst row) (reflect.tname (reflect.meta_of v)))
               table with
    | Some row => Ok (snd row)
    | None => Ok []
    end.

(** The table that names the record [main.T] only. *)
Definition fieldsOf (fields : list field) : reflect.Value -> Result (list field) :=
  fieldsByType [("main.T", fields)].

Definition hasWord (word raw : string) : bool :=
  match index 0 word raw with
  | Some _ => true
  | None => false
  end.

Definition wordTag (_ : reflect.Type_) (sf : StructField) : tag :=
  let raw := StructField_Tag sf in
  mkTag (StructField_Name sf)
        (hasWord "label" raw) (hasWord "block" raw) (hasWord "optional" raw) [].

Definition noBlockSchema (_ : reflect.Type_) (_ : tag) : Result Block :=
  Err "no schema".

Definition noAttrSchema (_ : reflect.Type_) : Result Value :=
  Err "no schema".

Definition plainMeta (name : string) : reflect.meta :=
  reflect.mkMeta name None None.

(** ** Vocabulary of the statements *)

(** Strictly ascending keys. *)
Definition ascending {A : Type} (key : A -> string) (l : list A) : Prop :=
  StronglySorted (fun a b => String.ltb (key a) (key b) = true) l.

(** What [valueToValue] does with the values of a map before it sorts. *)
Definition encodePair (kv : reflect.Value * reflect.Value)
  : reflect.Value * Result Value :=
  let '(key, x) := kv in (key, valueToValue x).

(** [key.String()] of a key that travels with something. *)
Definition keyString {B : Type} (kv : reflect.Value * B) : string :=
  reflect.Value_String (fst kv).

(** The entry [encodeMapEntries] appends for a key and its value. *)
Definition entryOf (kv : reflect.Value * reflect.Value) (e : MapEntry) : Prop :=
  MapEntry_Key e = Value_ofStr (keyString kv)
  /\ valueToValue (snd kv) = Ok (MapEntry_Value e)
  /\ MapEntry_Comments e = [].

(** The key text of a [MapEntry]. *)
Definition MapEntry_keyText (e : MapEntry) : string :=
  match Value_Str (MapEntry_Key e) with
  | Some s => s
  | None => EmptyString
  end.

(** The kinds the [switch t.Kind()] of [valueToValue] has a case for. *)
Definition dispatchedKind (k : reflect.Kind) : bool :=
  match k with
  | reflect.String | reflect.Slice | reflect.Map
  | reflect.Float32 | reflect.Float64
  | reflect.Int | reflect.Int8 | reflect.Int16 | reflect.Int32 | reflect.Int64
  | reflect.Uint | reflect.Uint8 | reflect.Uint16 | reflect.Uint32
  | reflect.Uint64
  | reflect.Bool => true
  | _ => false
  end.

(** A top-level input that is a non-nil pointer to a struct. *)
Definition pointsToStruct (v : option reflect.Value) : bool :=
  match v with
  | Some (reflect.VPtr _ (Some s)) =>
      reflect.Kind_eqb (reflect.Value_Kind s) reflect.Struct
  | _ => false
  end.

(** [ste'] answers as [ste] does wherever [ste] returns. *)
Definition refines {A B C : Type} (ste ste' : A -> B -> Result C) : Prop :=
  forall a b, ste a b <> Diverge -> ste' a b = ste a b.

(** The Renderer's rule for an Entry sequence, in the spec's words.  Per
    Entry: its comment lines, then the Block or the Attribute; one blank
    line after a Block Entry unless it is the last Entry among its siblings;
    none after an Attribute Entry. *)
Fixpoint renderEntries (valueText : Value -> string) (w indent : string)
  (entries : list Entry) : string * Result unit :=
  match entries with
  | [] => (w, Ok tt)
  | entry :: siblings =>
      let w := marshalComments w indent (Entry_Comments entry) in
      match Entry_Block entry, Entry_Attribute entry with
      | Some block, _ =>
          match marshalBlock valueText w indent block with
          | (w, Ok _) =>
              let blank := match siblings with [] => EmptyString | _ :: _ => newline end in
              renderEntries valueText (w ++ blank) indent siblings
          | (w, other) => (w, other)
          end
      | None, Some attribute =>
          match marshalAttribute valueText w indent attribute with
          | (w, Ok _) => renderEntries valueText w indent siblings
          | (w, other) => (w, other)
          end
      | None, None => (w, Panic "??")
      end
  end.

(** ** Records to run the encoder on *)

Definition exString (s : string) : reflect.Value :=
  reflect.VString (plainMeta "string") s.
Definition exInt (n : Z) : reflect.Value :=
  reflect.VInt (plainMeta "int") reflect.I0 n.
Definition exDuration90m : reflect.Value :=
  reflect.VInt (plainMeta "time.Duration") reflect.I64 (90 * time.Minute).
Definition exChan : reflect.Value :=
  reflect.VOther (plainMeta "chan int") reflect.OChan false.

(** The map [{"b": 1, "a": 2}], its keys handed over in either order. *)
Definition exMapType : reflect.meta := plainMeta "map[string]int".
Definition exMapBA : list (reflect.Value * reflect.Value) :=
  [(exString "b", exInt 1); (exString "a", exInt 2)].
Definition exMapAB : list (reflect.Value * reflect.Value) :=
  [(exString "a", exInt 2); (exString "b", exInt 1)].

(** The record [T], whose fields the enumerator's table lists; a pointer to
    it; and the record passed by value. *)
Definition exStruct : reflect.Value := reflect.VStruct (plainMeta "main.T") [].
Definition exRecord : option reflect.Value :=
  Some (reflect.VPtr (plainMeta "*main.T") (Some exStruct)).
Definition exRecordByValue : option reflect.Value := Some exStruct.

(** A record [Inner] without fields, and a slice of two of them. *)
Definition exInner : reflect.Value := reflect.VStruct (plainMeta "main.Inner") [].
Definition exInners : reflect.Value :=
  reflect.VSlice (plainMeta "[]main.Inner") false [exInner; exInner].

(** A field by its name, its raw tag and its value. *)
Definition exField (name raw : string) (v : reflect.Value) : field :=
  mkField (mkStructField name raw false) v.

(** A schema encoder that answers every type with the empty string. *)
Definition emptyAttrSchema (_ : reflect.Type_) : Result Value :=
  Ok (Value_ofStr EmptyString).

(** [Marshal] and [structToEntries] on the record [T] with the stand-in
    collaborators. *)
Definition exMarshal (fields : list field) : string * Result unit :=
  Marshal (fieldsOf fields) wordTag noBlockSchema noAttrSchema Value_text 2
    exRecord.
Definition exStructToEntries (attrSchema : reflect.Type_ -> Result Value)
  (fields : list field) (schema : bool) : Result (list Entry * list string) :=
  structToEntries (fieldsOf fields) wordTag noBlockSchema attrSchema 2
    exStruct schema.

(** Entries of an AST built by hand. *)
Definition exEmptyBlock (name : string) : Entry :=
  mkEntry None (Some (mkBlock name [] [])) [].
Definition exAttr (key : string) (n : Z) : Entry :=
  mkEntry (Some (mkAttribute key
                   (Value_ofNumber (big.SetInt64 big.newFloat n)))) None [].

(** The scenario of the spec: the block [thing] with the label field
    [Name = "x"] and the string sequence [tags = ["a", "b"]]. *)
Definition exThing : reflect.Value := reflect.VStruct (plainMeta "main.Thing") [].
Definition exThingTable : list (string * list field) :=
  [("main.T", [exField "thing" "block" exThing]);
   ("main.Thing",
    [exField "Name" "label" (exString "x");
     exField "tags" EmptyString
       (reflect.VSlice (plainMeta "[]string") false [exString "a"; exString "b"])])].

(** ** Vocabulary of the further properties *)

(** The loop of [marshalMap] by itself: [marshalMap] writes the opening
    brace and runs it. *)
Fixpoint marshalMap_loop (valueText : Value -> string)
  (mv : string -> string -> Value -> string * Result unit)
  (indent : string) (entries : list MapEntry) (w : string)
  : string * Result unit :=
  match entries with
  | [] =>
      match dropLast2 indent with
      | Ok outer => (w ++ outer ++ "}", Ok tt)
      | Err e => (w, Err e)
      | Panic msg => (w, Panic msg)
      | Diverge => (w, Diverge)
      end
  | mkMapEntry key value comments :: rest =>
      let w := marshalComments w indent comments in
      let w := w ++ indent ++ valueText key ++ ": " in
      match mv w (indent ++ "  ") value with
      | (w, Ok _) => marshalMap_loop valueText mv indent rest (w ++ "," ++ newline)
      | (w, other) => (w, other)
      end
  end.

(** An Entry the renderer has a branch for, at every depth: it holds a
    Block, all of whose body is such, or else an Attribute. *)
Fixpoint renderable (e : Entry) : bool :=
  match e with
  | mkEntry _ (Some (mkBlock _ _ body)) _ => forallb renderable body
  | mkEntry (Some _) None _ => true
  | mkEntry None None _ => false
  end.

(** An Entry that is a tagged union at every depth: exactly one of
    Attribute and Block. *)
Fixpoint taggedUnion (e : Entry) : bool :=
  match e with
  | mkEntry None (Some (mkBlock _ _ body)) _ => forallb taggedUnion body
  | mkEntry (Some _) None _ => true
  | _ => false
  end.

(** A Value whose only populated variant is [Str]. *)
Definition isStr (v : Value) : bool :=
  match v with
  | mkValue (Some _) None None [] false [] false => true
  | _ => false
  end.

(** A Value with exactly one variant populated, at every depth, and the
    keys of its map entries [Str] values. *)
Fixpoint oneVariant (v : Value) : bool :=
  match v with
  | mkValue (Some _) None None [] false [] false => true
  | mkValue None (Some _) None [] false [] false => true
  | mkValue None None (Some _) [] false [] false => true
  | mkValue None None None list true [] false => forallb oneVariant list
  | mkValue None None None [] false map true =>
      forallb (fun e => match e with
                        | mkMapEntry key value _ => isStr key && oneVariant value
                        end) map
  | _ => false
  end.

(** What the Struct Encoder appends to the labels for a field. *)
Definition labelOf (parseTag : reflect.Type_ -> StructField -> tag)
  (t : reflect.Type_) (schema : bool) (f : field) : string :=
  if schema then tag_name (parseTag t (field_t f))
  else reflect.Value_String (field_v f).

Definition isLabel (parseTag : reflect.Type_ -> StructField -> tag)
  (t : reflect.Type_) (f : field) : bool :=
  tag_label (parseTag t (field_t f)).


(** How rendering a sequence ends: with nil, or with the panic of an Entry
    that holds neither a Block nor an Attribute. *)
Definition renderOutcome (entries : list Entry) : Result unit :=
  if forallb renderable entries then Ok tt else Panic "??".

(** How [marshalMap] ends, by the length of the indentation it is given. *)
Definition mapOutcome (indent : string) : Result unit :=
  if (String.length indent <? 2)%nat
  then Panic "runtime error: slice bounds out of range"
  else Ok tt.

(** Further values to run the encoder on: a slice whose type has a
    [MarshalText] method, one whose method returns an error, a string of a
    named type, a float, and a map with integer keys. *)
Definition exIP : reflect.Value :=
  reflect.VSlice (reflect.mkMeta "net.IP" (Some (Ok "10.0.0.1")) (Some (Ok "null")))
    false [exInt 10; exInt 0; exInt 0; exInt 1].
Definition exFailing : reflect.Value :=
  reflect.VString (reflect.mkMeta "main.Secret" (Some (Err "sealed")) None) "s".
Definition exInts : reflect.Value :=
  reflect.VSlice (plainMeta "[]int") false [exInt 3; exInt 1; exInt 2].

(** A tag interpreter that also gives each field one comment line: its
    name. *)
Definition commentTag (t : reflect.Type_) (sf : StructField) : tag :=
  let tg := wordTag t sf in
  mkTag (tag_name tg) (tag_label tg) (tag_block tg) (tag_optional tg)
        ["// " ++ StructField_Name sf].

(** The fields of the record [Thing] of the scenario, and a record with an
    attribute, a failing attribute and one more. *)
Definition exThingFields : list field :=
  [exField "Name" "label" (exString "x");
   exField "tags" EmptyString
     (reflect.VSlice (plainMeta "[]string") false [exString "a"; exString "b"])].
Definition exSealedFields : list field :=
  [exField "k" EmptyString (exInt 1);
   exField "secret" EmptyString exFailing;
   exField "z" EmptyString (exInt 2)].
Definition exItemsFields : list field :=
  [exField "k" EmptyString (exInt 1); exField "items" "block" exInners].

(** * Properties *)

(** ** Strings *)

Lemma append_assoc (a b c : string) : (a ++ b) ++ c = a ++ (b ++ c).
Proof. induction a as [|x a IH]; simpl; [reflexivity|now rewrite IH]. Qed.

Lemma append_nil_r (a : string) : a ++ EmptyString = a.
Proof. induction a as [|x a IH]; simpl; [reflexivity|now rewrite IH]. Qed.

(** Written text is compared after evaluation and re-association. *)
Ltac text_eq := repeat (rewrite append_assoc || (progress cbn)); reflexivity.

Lemma length_append (a b : string) :
  String.length (a ++ b) = (String.length a + String.length b)%nat.
Proof. induction a as [|x a IH]; simpl; [reflexivity|now rewrite IH]. Qed.

Lemma substring_prefix (a b : string) :
  substring 0 (String.length a) (a ++ b) = a.
Proof.
  induction a as [|x a IH]; simpl.
  - now destruct b.
  - now rewrite IH.
Qed.

(** ** The byte-wise order on strings, Go's [<] *)

Lemma ascii_compare_lt_trans (a b c : ascii) :
  Ascii.compare a b = Lt -> Ascii.compare b c = Lt -> Ascii.compare a c = Lt.
Proof.
  unfold Ascii.compare. rewrite !N.compare_lt_iff. apply N.lt_trans.
Qed.

Lemma ascii_compare_refl (a : ascii) : Ascii.compare a a = Eq.
Proof. unfold Ascii.compare. apply N.compare_refl. Qed.

Lemma string_compare_refl (s : string) : String.compare s s = Eq.
Proof.
  induction s as [|c s IH]; simpl; [reflexivity|].
  now rewrite ascii_compare_refl.
Qed.

Lemma string_compare_lt_trans (s1 s2 s3 : string) :
  String.compare s1 s2 = Lt -> String.compare s2 s3 = Lt ->
  String.compare s1 s3 = Lt.
Proof.
  revert s2 s3.
  induction s1 as [|c1 s1 IH]; intros [|c2 s2] [|c3 s3]; simpl;
    try discriminate; try reflexivity.
  destruct (Ascii.compare c1 c2) eqn:E12; try discriminate;
    destruct (Ascii.compare c2 c3) eqn:E23; try discriminate; intros H12 H23.
  - apply Ascii.compare_eq_iff in E12, E23. subst.
    rewrite ascii_compare_refl. eauto.
  - apply Ascii.compare_eq_iff in E12. subst. now rewrite E23.
  - apply Ascii.compare_eq_iff in E23. subst. now rewrite E12.
  - now rewrite (ascii_compare_lt_trans _ _ _ E12 E23).
Qed.

Lemma ltb_irrefl (s : string) : String.ltb s s = false.
Proof. unfold String.ltb. now rewrite string_compare_refl. Qed.

Lemma ltb_trans (s1 s2 s3 : string) :
  String.ltb s1 s2 = true -> String.ltb s2 s3 = true -> String.ltb s1 s3 = true.
Proof.
  unfold String.ltb.
  destruct (String.compare s1 s2) eqn:E12; try discriminate.
  destruct (String.compare s2 s3) eqn:E23; try discriminate.
  now rewrite (string_compare_lt_trans _ _ _ E12 E23).
Qed.

Lemma ltb_asym (s1 s2 : string) :
  String.ltb s1 s2 = true -> String.ltb s2 s1 = false.
Proof.
  unfold String.ltb. rewrite (String.compare_antisym s2 s1).
  now destruct (String.compare s1 s2).
Qed.

(** Trichotomy: two strings neither of which is below the other are equal. *)
Lemma ltb_connected (s1 s2 : string) :
  String.ltb s1 s2 = false -> String.ltb s2 s1 = false -> s1 = s2.
Proof.
  unfold String.ltb. rewrite (String.compare_antisym s2 s1).
  destruct (String.compare s1 s2) eqn:E; simpl; try discriminate.
  intros _ _. now apply String.compare_eq_iff.
Qed.

(** ** [sort.Slice]: a sorted permutation, and the only one *)

Section SortFacts.
Context {A : Type} (key : A -> string).

Let less (a b : A) : bool := String.ltb (key a) (key b).

Lemma insertSorted_perm (x : A) (l : list A) :
  Permutation (insertSorted less x l) (x :: l).
Proof.
  induction l as [|y l IH]; simpl; [reflexivity|].
  destruct (less y x); [|reflexivity].
  rewrite IH. apply perm_swap.
Qed.

Lemma sortSlice_perm (l : list A) : Permutation (sortSlice less l) l.
Proof.
  induction l as [|x l IH]; simpl; [reflexivity|].
  rewrite insertSorted_perm. now constructor.
Qed.

Lemma insertSorted_ascending (x : A) (l : list A) :
  ascending key l -> ~ In (key x) (List.map key l) ->
  ascending key (insertSorted less x l).
Proof.
  unfold ascending.
  induction l as [|y l IH]; simpl; intros Hs Hx.
  - repeat constructor.
  - inversion Hs as [|? ? Hl Hy]; subst.
    destruct (less y x) eqn:E.
    + constructor.
      * apply IH; [assumption|tauto].
      * rewrite Forall_forall. intros z Hz.
        apply (Permutation_in _ (insertSorted_perm x l)) in Hz.
        destruct Hz as [<-|Hz]; [assumption|].
        rewrite Forall_forall in Hy. now apply Hy.
    + assert (Hxy : less x y = true).
      { destruct (less x y) eqn:E'; [reflexivity|].
        exfalso. apply Hx. left. symmetry. now apply ltb_connected. }
      constructor; [assumption|].
      constructor; [assumption|].
      rewrite Forall_forall in Hy |- *. intros z Hz.
      unfold less in *. eapply ltb_trans; [exact Hxy|]. now apply Hy.
Qed.

Lemma sortSlice_ascending (l : list A) :
  NoDup (List.map key l) -> ascending key (sortSlice less l).
Proof.
  induction l as [|x l IH]; simpl; intros Hnd.
  - constructor.
  - inversion Hnd as [|? ? Hx Hl]; subst.
    apply insertSorted_ascending; [now apply IH|].
    intros Hin. apply Hx.
    eapply Permutation_in; [|exact Hin].
    apply Permutation_map, sortSlice_perm.
Qed.

(** Two strictly ascending arrangements of the same elements are the same
    list: whatever the algorithm behind [sort.Slice], the outcome is
    this one. *)
Lemma sorted_perm_unique (l1 l2 : list A) :
  ascending key l1 -> ascending key l2 -> Permutation l1 l2 -> l1 = l2.
Proof.
  unfold ascending. revert l2.
  induction l1 as [|a l1 IH]; intros l2 H1 H2 Hp.
  - now apply Permutation_nil in Hp.
  - destruct l2 as [|b l2].
    + symmetry in Hp. now apply Permutation_nil in Hp.
    + inversion H1 as [|? ? Hs1 Ha]; inversion H2 as [|? ? Hs2 Hb]; subst.
      rewrite Forall_forall in Ha, Hb.
      assert (Hab : a = b).
      { assert (Hin1 : In a (b :: l2))
          by (eapply Permutation_in; [exact Hp|now left]).
        assert (Hin2 : In b (a :: l1))
          by (eapply Permutation_in; [symmetry; exact Hp|now left]).
        destruct Hin1 as [->|Hin1]; [reflexivity|].
        destruct Hin2 as [->|Hin2]; [reflexivity|].
        apply Hb in Hin1. apply Ha in Hin2. unfold less in *.
        rewrite (ltb_asym _ _ Hin1) in Hin2. discriminate. }
      subst b. f_equal.
      apply IH; try assumption. now apply Permutation_cons_inv in Hp.
Qed.

Lemma sortSlice_perm_invariant (l1 l2 : list A) :
  NoDup (List.map key l1) -> Permutation l1 l2 ->
  sortSlice less l1 = sortSlice less l2.
Proof.
  intros Hnd Hp.
  apply sorted_perm_unique.
  - now apply sortSlice_ascending.
  - apply sortSlice_ascending.
    eapply Permutation_NoDup; [|exact Hnd]. now apply Permutation_map.
  - rewrite !sortSlice_perm. exact Hp.
Qed.
End SortFacts.

(** ** The Value Encoder, case by case *)

Lemma not_duration (v : reflect.Value) :
  reflect.Value_Kind v <> reflect.Int64 ->
  reflect.Type_eqb (reflect.Value_Type v) durationType = false.
Proof.
  intros Hk. unfold reflect.Type_eqb, durationType. simpl.
  destruct (reflect.Value_Kind v); try (now rewrite andb_false_r).
  now elim Hk.
Qed.

Lemma valueToValue_VMap (m : reflect.meta) (isnil : bool)
  (kvs : list (reflect.Value * reflect.Value)) :
  valueToValue (reflect.VMap m isnil kvs) =
  match reflect.MarshalText m with
  | Some tm => b <- tm ;; Ok (Value_ofStr b)
  | None =>
      match reflect.MarshalJSON m with
      | Some jm => b <- jm ;; Ok (Value_ofStr b)
      | None =>
          entries <- encodeMapEntries
                       (sortSlice keyLess (List.map encodePair kvs)) [] ;;
          Ok (Value_ofMap entries)
      end
  end.
Proof.
  cbn [valueToValue].
  rewrite not_duration by (simpl; discriminate).
  reflexivity.
Qed.

Lemma valueToValue_VSlice (m : reflect.meta) (isnil : bool)
  (elems : list reflect.Value) :
  valueToValue (reflect.VSlice m isnil elems) =
  match reflect.MarshalText m with
  | Some tm => b <- tm ;; Ok (Value_ofStr b)
  | None =>
      match reflect.MarshalJSON m with
      | Some jm => b <- jm ;; Ok (Value_ofStr b)
      | None =>
          list <- encodeElems valueToValue elems [] ;;
          Ok (Value_ofList list)
      end
  end.
Proof.
  cbn [valueToValue].
  rewrite not_duration by (simpl; discriminate).
  reflexivity.
Qed.

(** Sorting looks at the keys only, so it commutes with encoding the
    values. *)
Lemma sortSlice_encodePair (kvs : list (reflect.Value * reflect.Value)) :
  sortSlice keyLess (List.map encodePair kvs) =
  List.map encodePair (sortSlice keyLess kvs).
Proof.
  induction kvs as [|kv kvs IH]; simpl; [reflexivity|].
  rewrite IH. clear IH.
  induction (sortSlice keyLess kvs) as [|y l IHl]; simpl; [reflexivity|].
  replace (keyLess (encodePair y) (encodePair kv)) with (keyLess y kv)
    by (destruct y, kv; reflexivity).
  destruct (keyLess y kv); simpl; [now rewrite IHl|reflexivity].
Qed.

Lemma encodeMapEntries_ok (sorted : list (reflect.Value * reflect.Value))
  (acc entries : list MapEntry) :
  encodeMapEntries (List.map encodePair sorted) acc = Ok entries ->
  exists new, entries = (acc ++ new)%list /\ Forall2 entryOf sorted new.
Proof.
  revert acc.
  induction sorted as [|[key x] rest IH]; simpl; intros acc H.
  - inversion H; subst. exists []. now rewrite app_nil_r.
  - destruct (valueToValue x) as [value| | |] eqn:Ex; simpl in H; try discriminate.
    apply IH in H. destruct H as (new & -> & Hnew).
    exists (mkMapEntry (Value_ofStr (reflect.Value_String key)) value [] :: new).
    split; [now rewrite <- app_assoc|].
    constructor; [|assumption].
    unfold entryOf, keyString; simpl. auto.
Qed.

Lemma encodeMapEntries_total (sorted : list (reflect.Value * reflect.Value))
  (acc : list MapEntry) :
  Forall (fun kv => exists x, valueToValue (snd kv) = Ok x) sorted ->
  exists entries, encodeMapEntries (List.map encodePair sorted) acc = Ok entries.
Proof.
  intros H. revert acc.
  induction H as [|[key x] rest [y Hy] _ IH]; simpl; intros acc.
  - now exists acc.
  - simpl in Hy. rewrite Hy. simpl. apply IH.
Qed.

Lemma entryOf_keys (sorted : list (reflect.Value * reflect.Value))
  (entries : list MapEntry) :
  Forall2 entryOf sorted entries ->
  List.map MapEntry_keyText entries = List.map keyString sorted.
Proof.
  induction 1 as [|kv e l l' (Hk & _ & _) _ IH]; simpl; [reflexivity|].
  rewrite IH. unfold MapEntry_keyText. now rewrite Hk.
Qed.

Lemma ascending_keys {B : Type} (l : list (reflect.Value * B)) :
  ascending keyString l ->
  StronglySorted (fun a b => String.ltb a b = true) (List.map keyString l).
Proof.
  unfold ascending.
  induction 1 as [|a l _ IH Ha]; simpl; constructor; [assumption|].
  now rewrite Forall_map.
Qed.

(** C4. For a map whose keys have pairwise different strings (as the keys
    of a string-keyed Go map have), [valueToValue] gives the same outcome
    whatever order the keys are handed over in; whenever it produces a
    Value, the key texts of its [Map] entries are strictly ascending; and
    when the map reaches the mapping rule and its values encode, the
    outcome is a Value with [HaveMap] set whose entries are those of the
    keys sorted by string, each with its own encoded value. *)
Theorem map_entries_sorted_by_key (m : reflect.meta) (isnil : bool)
  (kvs kvs' : list (reflect.Value * reflect.Value)) :
  NoDup (List.map keyString kvs) ->
  Permutation kvs kvs' ->
  valueToValue (reflect.VMap m isnil kvs') = valueToValue (reflect.VMap m isnil kvs)
  /\ (forall val, valueToValue (reflect.VMap m isnil kvs) = Ok val ->
        StronglySorted (fun a b => String.ltb a b = true)
          (List.map MapEntry_keyText (Value_Map val)))
  /\ (implements (reflect.VMap m isnil kvs) textMarshalerInterface = None ->
      implements (reflect.VMap m isnil kvs) jsonMarshalerInterface = None ->
      Forall (fun kv => exists x, valueToValue (snd kv) = Ok x) kvs ->
      exists val,
        valueToValue (reflect.VMap m isnil kvs) = Ok val
        /\ Value_HaveMap val = true
        /\ Forall2 entryOf (sortSlice keyLess kvs) (Value_Map val)).
Proof.
  intros Hnd Hp.
  assert (Hsorted : ascending keyString (sortSlice keyLess kvs))
    by (apply (sortSlice_ascending keyString); exact Hnd).
  split; [|split].
  - rewrite !valueToValue_VMap.
    replace (sortSlice keyLess (List.map encodePair kvs'))
      with (sortSlice keyLess (List.map encodePair kvs)); [reflexivity|].
    apply (sortSlice_perm_invariant keyString).
    + rewrite map_map.
      erewrite map_ext; [exact Hnd|]. now intros [k x].
    + now apply Permutation_map.
  - intros val. rewrite valueToValue_VMap.
    destruct (reflect.MarshalText m) as [[b| | |]|];
      [simpl; intros H; inversion H; subst; constructor
      |discriminate|discriminate|discriminate|].
    destruct (reflect.MarshalJSON m) as [[b| | |]|];
      [simpl; intros H; inversion H; subst; constructor
      |discriminate|discriminate|discriminate|].
    rewrite sortSlice_encodePair.
    destruct (encodeMapEntries _ _) as [entries| | |] eqn:E; try discriminate.
    simpl. intros H; inversion H; subst; simpl.
    apply encodeMapEntries_ok in E. destruct E as (new & -> & Hnew). simpl.
    rewrite (entryOf_keys _ _ Hnew). now apply ascending_keys.
  - intros Ht Hj Hall. unfold implements in Ht, Hj. simpl in Ht, Hj.
    rewrite valueToValue_VMap, Ht, Hj, sortSlice_encodePair.
    assert (Hall' : Forall (fun kv => exists x, valueToValue (snd kv) = Ok x)
                      (sortSlice keyLess kvs)).
    { rewrite Forall_forall in Hall |- *. intros kv Hin. apply Hall.
      eapply Permutation_in; [apply (sortSlice_perm keyString)|exact Hin]. }
    destruct (encodeMapEntries_total _ [] Hall') as [entries E].
    rewrite E. simpl. eexists. split; [reflexivity|]. split; [reflexivity|].
    simpl. apply encodeMapEntries_ok in E. now destruct E as (new & -> & Hnew).
Qed.

Lemma map_entries_sorted_by_key_witness :
  valueToValue (reflect.VMap exMapType false exMapAB)
  = valueToValue (reflect.VMap exMapType false exMapBA)
  /\ exists val,
       valueToValue (reflect.VMap exMapType false exMapBA) = Ok val
       /\ List.map MapEntry_keyText (Value_Map val) = ["a"; "b"].
Proof.
  assert (Hnd : NoDup (List.map keyString exMapBA)).
  { repeat constructor; simpl; intuition discriminate. }
  destruct (map_entries_sorted_by_key exMapType false exMapBA exMapAB Hnd
              (perm_swap _ _ _)) as (Heq & _ & _).
  split; [exact Heq|].
  eexists. split; reflexivity.
Defined.

(** The map [{"b": 1, "a": 2}] as the attribute [m]: the line of [a] comes
    before the line of [b], whichever order the keys arrive in and whatever
    text the [String] method of [Value] gives. *)
Example map_renders_a_before_b (valueText : Value -> string)
  (kvs : list (reflect.Value * reflect.Value)) :
  kvs = exMapBA \/ kvs = exMapAB ->
  Marshal (fieldsOf [exField "m" EmptyString (reflect.VMap exMapType false kvs)])
    wordTag noBlockSchema noAttrSchema valueText 2 exRecord
  = ("m = {" ++ newline
     ++ "  " ++ valueText (Value_ofStr "a") ++ ": "
     ++ valueText (Value_ofNumber (big.mkFloat 53 false big.finite (2 ^ 63) 2))
     ++ "," ++ newline
     ++ "  " ++ valueText (Value_ofStr "b") ++ ": "
     ++ valueText (Value_ofNumber (big.mkFloat 53 false big.finite (2 ^ 63) 1))
     ++ "," ++ newline
     ++ "}" ++ newline, Ok tt).
Proof.
  intros [-> | ->]; text_eq.
Qed.

Example map_renders_a_before_b_text :
  exMarshal [exField "m" EmptyString (reflect.VMap exMapType false exMapBA)]
  = ("m = {" ++ newline
     ++ "  " ++ Quote "a" ++ ": 2," ++ newline
     ++ "  " ++ Quote "b" ++ ": 1," ++ newline
     ++ "}" ++ newline, Ok tt).
Proof. reflexivity. Qed.

(** ** Durations *)

Lemma valueToValue_duration (m : reflect.meta) (d : Z) :
  reflect.tname m = "time.Duration" ->
  valueToValue (reflect.VInt m reflect.I64 d)
  = Ok (Value_ofStr (time.Duration_String d)).
Proof.
  intros Hm. cbn [valueToValue].
  unfold reflect.Type_eqb, reflect.Value_Type. simpl. now rewrite Hm.
Qed.

Lemma marshalAttribute_plain (valueText : Value -> string)
  (w indent key : string) (value : Value) :
  Value_HaveMap value = false ->
  marshalAttribute valueText w indent (mkAttribute key value)
  = (w ++ indent ++ key ++ " = " ++ valueText value ++ newline, Ok tt).
Proof.
  intros H. unfold marshalAttribute. destruct value; simpl in *. subst.
  now rewrite !append_assoc.
Qed.

(** C1, amended. A field of type [time.Duration] holding [d], encoded in
    data mode as a plain attribute, becomes the attribute whose value is
    the [Str] of [d.String()]; its line is [key = ] followed by the quoted
    text; and the text of 90 minutes is [1h30m0s], Go keeping the zero
    seconds. *)
Theorem duration_attribute_line
  (attrSchema : reflect.Type_ -> Result Value) (valueText : Value -> string)
  (m : reflect.meta) (sf : StructField) (tg : tag) (d : Z) (w indent : string) :
  reflect.tname m = "time.Duration" ->
  (forall s, valueText (Value_ofStr s) = Quote s) ->
  fieldToAttr attrSchema (mkField sf (reflect.VInt m reflect.I64 d)) tg false
  = Ok (mkAttribute (tag_name tg) (Value_ofStr (time.Duration_String d)))
  /\ marshalAttribute valueText w indent
       (mkAttribute (tag_name tg) (Value_ofStr (time.Duration_String d)))
     = (w ++ indent ++ tag_name tg ++ " = "
          ++ Quote (time.Duration_String d) ++ newline, Ok tt)
  /\ time.Duration_String (90 * time.Minute) = "1h30m0s".
Proof.
  intros Hm Hq. split; [|split].
  - unfold fieldToAttr. simpl field_v. now rewrite valueToValue_duration.
  - rewrite marshalAttribute_plain by reflexivity. now rewrite Hq.
  - reflexivity.
Qed.

Lemma Value_text_Str (s : string) : Value_text (Value_ofStr s) = Quote s.
Proof. reflexivity. Qed.

Lemma duration_attribute_line_witness :
  fieldToAttr noAttrSchema (exField "x" EmptyString exDuration90m)
    (wordTag durationType (mkStructField "x" EmptyString false)) false
  = Ok (mkAttribute "x" (Value_ofStr "1h30m0s"))
  /\ marshalAttribute Value_text EmptyString EmptyString (mkAttribute "x" (Value_ofStr "1h30m0s"))
     = ("x = " ++ Quote "1h30m0s" ++ newline, Ok tt).
Proof.
  destruct (duration_attribute_line noAttrSchema Value_text
              (plainMeta "time.Duration") (mkStructField "x" EmptyString false)
              (wordTag durationType (mkStructField "x" EmptyString false))
              (90 * time.Minute) EmptyString EmptyString eq_refl Value_text_Str)
    as (H1 & H2 & _).
  split; [exact H1|exact H2].
Defined.

(** C1 as stated fails: the record with the attribute [x] holding 90
    minutes marshals to the line [x = "1h30m0s"], not [x = "1h30m"]. *)
Lemma duration_90m_is_not_1h30m :
  exMarshal [exField "x" EmptyString exDuration90m]
  = ("x = " ++ Quote "1h30m0s" ++ newline, Ok tt)
  /\ fst (exMarshal [exField "x" EmptyString exDuration90m])
     <> "x = " ++ Quote "1h30m" ++ newline
  /\ valueToValue exDuration90m = Ok (Value_ofStr "1h30m0s")
  /\ forall valueText : Value -> string,
       Marshal (fieldsOf [exField "x" EmptyString exDuration90m]) wordTag noBlockSchema
         noAttrSchema valueText 2 exRecord
       = ("x = " ++ valueText (Value_ofStr "1h30m0s") ++ newline, Ok tt).
Proof.
  split; [reflexivity|]. split; [vm_compute; discriminate|].
  split; [reflexivity|]. intros valueText.
  text_eq.
Qed.

(** ** Integers

    The Number of an integer is a [Float] of precision 53: an integer of
    magnitude below [2^53] is kept as it is. *)

Lemma setBits64_fits (z : big.Float) (neg : bool) (x : Z) :
  big.prec z = 53 -> 0 < x < 2 ^ 53 ->
  big.setBits64 z neg x
  = big.mkFloat 53 neg big.finite (x * 2 ^ big.LeadingZeros64 x)
      (64 - big.LeadingZeros64 x)
  /\ 11 <= big.LeadingZeros64 x <= 63.
Proof.
  intros Hp [Hx0 Hx].
  assert (Hlog : 0 <= Z.log2 x < 53).
  { split; [apply Z.log2_nonneg|]. apply Z.log2_lt_pow2; lia. }
  assert (Hs : big.LeadingZeros64 x = 63 - Z.log2 x).
  { unfold big.LeadingZeros64. destruct (Z.eqb_spec x 0); lia. }
  split; [|lia].
  set (s := big.LeadingZeros64 x) in *.
  assert (Hs11 : 11 <= s <= 63) by lia.
  unfold big.setBits64. rewrite Hp. simpl (53 =? 0). cbv iota.
  destruct (Z.eqb_spec x 0) as [->|_]; [lia|].
  fold s. simpl (53 <? 64). cbv iota.
  assert (Hm : Z.shiftl x s mod 2 ^ 64 = x * 2 ^ s).
  { rewrite Z.shiftl_mul_pow2 by lia. apply Z.mod_small.
    split; [apply Z.mul_nonneg_nonneg; lia|].
    destruct (Z.log2_spec x Hx0) as [_ Hup].
    replace 64 with (Z.succ (Z.log2 x) + s) by lia.
    rewrite Z.pow_add_r by lia.
    apply Z.mul_lt_mono_pos_r; lia. }
  rewrite Hm.
  assert (Hdiv : forall k, 0 <= k <= 11 -> (x * 2 ^ s) mod 2 ^ k = 0).
  { intros k Hk. replace s with ((s - k) + k) by lia.
    rewrite Z.pow_add_r by lia. rewrite Z.mul_assoc.
    apply Z.mod_mul. lia. }
  unfold big.round. cbn [big.fform big.prec big.mant big.exp big.neg].
  simpl (64 <=? 53). cbv iota.
  replace (64 - 53 - 1) with 10 by reflexivity.
  replace (64 - 53) with 11 by reflexivity.
  rewrite (Hdiv 10) by lia. 
  assert (Hbit : Z.testbit (x * 2 ^ s) 10 = false).
  { rewrite Z.mul_pow2_bits_low by lia. reflexivity. }
  rewrite Hbit.
  change (53 <? 64) with true. change (64 <=? 53) with false.
  change (0 =? 0) with true. cbv beta iota delta [orb negb andb].
  rewrite (Hdiv 11) by lia. now rewrite Z.sub_0_r.
Qed.

Lemma Float_Q_scaled (neg : bool) (x s : Z) :
  0 <= s ->
  Qeq (Qmult (inject_Z ((if neg then -1 else 1) * (x * 2 ^ s))) (Qpower 2 (- s)))
      (inject_Z ((if neg then -1 else 1) * x)).
Proof.
  intros Hs.
  rewrite Z.mul_assoc, inject_Z_mult.
  rewrite <- Qmult_assoc.
  assert (H2 : Qeq (inject_Z (2 ^ s) * Qpower 2 (- s)) 1).
  { rewrite Qpower_opp.
    assert (Hpow : Qeq (inject_Z (2 ^ s)) (Qpower 2 s)).
    { change 2%Q with (inject_Z 2). now rewrite <- Zpower_Qpower. }
    rewrite Hpow. apply Qmult_inv_r.
    rewrite <- Hpow. unfold Qeq. simpl. 
    assert (0 < 2 ^ s) by (apply Z.pow_pos_nonneg; lia). lia. }
  rewrite H2. apply Qmult_1_r.
Qed.

Lemma Float_Q_setBits64 (z : big.Float) (neg : bool) (x : Z) :
  big.prec z = 53 -> 0 <= x < 2 ^ 53 ->
  exists q,
    big.Float_Q (big.setBits64 z neg x) = Some q
    /\ Qeq q (inject_Z ((if neg then -1 else 1) * x)).
Proof.
  intros Hp Hx.
  destruct (Z.eq_dec x 0) as [->|Hx0].
  - unfold big.setBits64. rewrite Hp. simpl. exists 0%Q. split; [reflexivity|].
    now rewrite Z.mul_0_r.
  - destruct (setBits64_fits z neg x Hp) as [-> Hs]; [lia|].
    unfold big.Float_Q. cbn [big.fform big.neg big.mant big.exp].
    eexists. split; [reflexivity|].
    replace (64 - big.LeadingZeros64 x - 64) with (- big.LeadingZeros64 x) by lia.
    apply Float_Q_scaled. lia.
Qed.

(** X12. A signed integer of magnitude below [2^53] that reaches the integer
    rule is kept exactly: its Number stands for the same integer. *)
Lemma integer_below_2_53_is_exact (m : reflect.meta) (k : reflect.intSize) (x : Z) :
  reflect.Type_eqb (reflect.Value_Type (reflect.VInt m k x)) durationType = false ->
  reflect.MarshalText m = None ->
  reflect.MarshalJSON m = None ->
  - 2 ^ 53 < x < 2 ^ 53 ->
  exists n q,
    valueToValue (reflect.VInt m k x) = Ok (Value_ofNumber n)
    /\ big.Float_Q n = Some q
    /\ Qeq q (inject_Z x).
Proof.
  intros Hd Ht Hj Hx. cbn [valueToValue]. rewrite Hd. unfold implements.
  simpl reflect.meta_of. rewrite Ht, Hj.
  change (big.NewFloat (big.F64 false 0 0))
    with (Ok (big.mkFloat 53 false big.zero 0 0)).
  simpl bind. eexists.
  unfold big.SetInt64.
  destruct (Float_Q_setBits64 (big.mkFloat 53 false big.zero 0 0) (x <? 0)
              ((if x <? 0 then - x else x) mod 2 ^ 64) eq_refl) as (q & Hq & Hv).
  { destruct (Z.ltb_spec x 0); rewrite Z.mod_small; lia. }
  exists q. split; [reflexivity|]. split; [exact Hq|].
  rewrite Hv. destruct (Z.ltb_spec x 0); rewrite Z.mod_small by lia;
    apply inject_Z_injective; lia.
Qed.

(** X13. An unsigned integer below [2^53] that reaches the integer rule is
    kept exactly: its Number stands for the same integer. *)
Lemma unsigned_below_2_53_is_exact (m : reflect.meta) (k : reflect.intSize) (x : Z) :
  reflect.MarshalText m = None ->
  reflect.MarshalJSON m = None ->
  0 <= x < 2 ^ 53 ->
  exists n q,
    valueToValue (reflect.VUint m k x) = Ok (Value_ofNumber n)
    /\ big.Float_Q n = Some q
    /\ Qeq q (inject_Z x).
Proof.
  intros Ht Hj Hx. cbn [valueToValue].
  rewrite not_duration by (destruct k; simpl; discriminate).
  unfold implements. simpl reflect.meta_of. rewrite Ht, Hj.
  change (big.NewFloat (big.F64 false 0 0))
    with (Ok (big.mkFloat 53 false big.zero 0 0)).
  simpl bind. eexists.
  unfold big.SetUint64.
  destruct (Float_Q_setBits64 (big.mkFloat 53 false big.zero 0 0) false x
              eq_refl Hx) as (q & Hq & Hv).
  exists q. split; [reflexivity|]. split; [exact Hq|].
  rewrite Hv. apply inject_Z_injective. lia.
Qed.

(** C2 fails on the code. [big.NewFloat(0)] fixes the precision of the
    [Float] at 53 bits, so [SetInt64] and [SetUint64] round: the [int64]
    [2^53 + 1] becomes the Number [2^53], and the largest [uint64] becomes
    [2^64]. *)
Theorem integer_above_2_53_is_rounded :
  (exists n,
     valueToValue (reflect.VInt (plainMeta "int64") reflect.I64 9007199254740993)
     = Ok (Value_ofNumber n)
     /\ big.prec n = 53
     /\ option_map Qred (big.Float_Q n) = Some (inject_Z 9007199254740992))
  /\ (exists n,
     valueToValue (reflect.VUint (plainMeta "uint64") reflect.I64 18446744073709551615)
     = Ok (Value_ofNumber n)
     /\ big.prec n = 53
     /\ option_map Qred (big.Float_Q n) = Some (inject_Z 18446744073709551616)).
Proof. split; eexists; (split; [|split]); vm_compute; reflexivity. Qed.

(** ** Unsupported types *)

(** C5. A value that no rule of the dispatch matches makes [valueToValue]
    panic with the name of its type, and with it the data-mode encoding of
    the attribute that holds it. *)
Theorem unsupported_type_panics (v : reflect.Value) :
  reflect.Type_eqb (reflect.Value_Type v) durationType = false ->
  implements v textMarshalerInterface = None ->
  implements v jsonMarshalerInterface = None ->
  dispatchedKind (reflect.Value_Kind v) = false ->
  reflect.Type_eqb (reflect.Value_Type v) timeType = false ->
  valueToValue v = Panic (reflect.Type_String (reflect.Value_Type v))
  /\ forall (attrSchema : reflect.Type_ -> Result Value) (f : field) (tg : tag),
       field_v f = v ->
       fieldToAttr attrSchema f tg false
       = Panic (reflect.Type_String (reflect.Value_Type v)).
Proof.
  intros Hd Ht Hj Hk Htime.
  assert (H : valueToValue v = Panic (reflect.Type_String (reflect.Value_Type v))).
  { unfold implements in Ht, Hj.
    destruct v as [m b|m [] i|m [] u|m [] f|m s|m n l|m n l|m l|m z s|m t|m k z];
      simpl in Hk; try discriminate Hk;
      cbn [valueToValue]; rewrite Hd; unfold implements;
      simpl in Ht, Hj |- *; rewrite Ht, Hj; try rewrite Htime; reflexivity. }
  split; [exact H|].
  intros attrSchema f tg Hf. unfold fieldToAttr. now rewrite Hf, H.
Qed.

Lemma unsupported_type_panics_witness :
  valueToValue exChan = Panic "chan int".
Proof.
  apply (unsupported_type_panics exChan); reflexivity.
Defined.

(** ** The top-level input *)

(** C6. Whatever is not a non-nil pointer to a struct is answered by the
    input-type error carrying the [%T] of the input, and no AST. *)
Theorem not_pointer_to_struct_is_error
  (flattenFields : reflect.Value -> Result (list field))
  (parseTag : reflect.Type_ -> StructField -> tag)
  (sliceToBlockSchema : reflect.Type_ -> tag -> Result Block)
  (attrSchema : reflect.Type_ -> Result Value)
  (fuel : nat) (v : option reflect.Value) :
  pointsToStruct v = false ->
  MarshalToAST flattenFields parseTag sliceToBlockSchema attrSchema fuel v
  = Err ("expected a pointer to a struct, not " ++ reflect.verbT v).
Proof.
  unfold MarshalToAST, marshalToAST, pointsToStruct.
  destruct v as [v|]; [|reflexivity].
  destruct (reflect.Kind_eqb (reflect.Kind_of (Some v)) reflect.Ptr) eqn:Ek;
    [|reflexivity].
  destruct v as [m b|m [] i|m [] u|m [] f|m s|m n l|m n l|m l|m z s|m target|m [] z];
    try discriminate Ek. simpl.
  destruct target as [s|]; [|reflexivity].
  now intros ->.
Qed.

Lemma not_pointer_to_struct_is_error_witness :
  MarshalToAST (fieldsOf []) wordTag noBlockSchema noAttrSchema 2 exRecordByValue
  = Err "expected a pointer to a struct, not main.T".
Proof.
  apply (not_pointer_to_struct_is_error (fieldsOf []) wordTag noBlockSchema
           noAttrSchema 2 exRecordByValue).
  reflexivity.
Defined.

(** C7. When the encoding of the top-level record yields labels,
    [MarshalToAST] returns the top-level label error and no AST. *)
Theorem top_level_labels_are_error
  (flattenFields : reflect.Value -> Result (list field))
  (parseTag : reflect.Type_ -> StructField -> tag)
  (sliceToBlockSchema : reflect.Type_ -> tag -> Result Block)
  (attrSchema : reflect.Type_ -> Result Value)
  (fuel : nat) (m : reflect.meta) (s : reflect.Value)
  (entries : list Entry) (labels : list string) :
  reflect.Value_Kind s = reflect.Struct ->
  structToEntries flattenFields parseTag sliceToBlockSchema attrSchema fuel s false
  = Ok (entries, labels) ->
  labels <> [] ->
  MarshalToAST flattenFields parseTag sliceToBlockSchema attrSchema fuel
    (Some (reflect.VPtr m (Some s)))
  = Err ("unexpected labels " ++ Join labels ", " ++ " at top level").
Proof.
  intros Hk Hs Hl. unfold MarshalToAST, marshalToAST. simpl.
  rewrite Hk, Hs. simpl.
  destruct labels; [now elim Hl|reflexivity].
Qed.

Lemma top_level_labels_are_error_witness :
  MarshalToAST (fieldsOf [exField "Name" "label" (exString "x")]) wordTag
    noBlockSchema noAttrSchema 2 exRecord
  = Err "unexpected labels x at top level".
Proof.
  apply (top_level_labels_are_error
           (fieldsOf [exField "Name" "label" (exString "x")]) wordTag
           noBlockSchema noAttrSchema 2 (plainMeta "*main.T")
           (reflect.VStruct (plainMeta "main.T") []) [] ["x"]).
  - reflexivity.
  - reflexivity.
  - discriminate.
Defined.

(** ** Empty sequences and mappings *)

Lemma dropLast2_indent (indent : string) : dropLast2 (indent ++ "  ") = Ok indent.
Proof.
  unfold dropLast2. rewrite length_append. simpl String.length.
  replace (String.length indent + 2 <? 2)%nat with false
    by (symmetry; apply Nat.ltb_ge; lia).
  replace (String.length indent + 2 - 2)%nat with (String.length indent) by lia.
  now rewrite substring_prefix.
Qed.

Lemma marshalAttribute_empty_map (valueText : Value -> string)
  (w indent key : string) :
  marshalAttribute valueText w indent (mkAttribute key (Value_ofMap []))
  = (w ++ indent ++ key ++ " = {" ++ newline ++ indent ++ "}" ++ newline, Ok tt).
Proof.
  unfold marshalAttribute. simpl. unfold marshalMap_body.
  rewrite dropLast2_indent. now rewrite !append_assoc.
Qed.

(** C8, amended. An empty sequence and an empty mapping that reach the
    sequence and the mapping rule are encoded with the presence flag set,
    nil or not.  The attribute of the empty list is the line
    [key = []]; the attribute of the empty map takes two lines, [key = {]
    and the closing brace at the attribute's indentation. *)
Theorem empty_list_and_map_are_present
  (attrSchema : reflect.Type_ -> Result Value) (valueText : Value -> string)
  (m : reflect.meta) (isnil : bool) (sf : StructField) (tg : tag)
  (w indent : string) :
  reflect.MarshalText m = None ->
  reflect.MarshalJSON m = None ->
  valueText (Value_ofList []) = "[]" ->
  (fieldToAttr attrSchema (mkField sf (reflect.VSlice m isnil [])) tg false
   = Ok (mkAttribute (tag_name tg) (Value_ofList []))
   /\ Value_HaveList (Value_ofList []) = true
   /\ marshalAttribute valueText w indent (mkAttribute (tag_name tg) (Value_ofList []))
      = (w ++ indent ++ tag_name tg ++ " = []" ++ newline, Ok tt))
  /\ (fieldToAttr attrSchema (mkField sf (reflect.VMap m isnil [])) tg false
      = Ok (mkAttribute (tag_name tg) (Value_ofMap []))
      /\ Value_HaveMap (Value_ofMap []) = true
      /\ marshalAttribute valueText w indent (mkAttribute (tag_name tg) (Value_ofMap []))
         = (w ++ indent ++ tag_name tg ++ " = {" ++ newline
              ++ indent ++ "}" ++ newline, Ok tt)).
Proof.
  intros Ht Hj Hl. split; (split; [|split]); try reflexivity.
  - unfold fieldToAttr. simpl field_v.
    now rewrite valueToValue_VSlice, Ht, Hj.
  - rewrite marshalAttribute_plain by reflexivity. now rewrite Hl.
  - unfold fieldToAttr. simpl field_v.
    now rewrite valueToValue_VMap, Ht, Hj.
  - apply marshalAttribute_empty_map.
Qed.

Lemma empty_list_and_map_are_present_witness :
  marshalAttribute Value_text EmptyString EmptyString (mkAttribute "l" (Value_ofList []))
  = ("l = []" ++ newline, Ok tt)
  /\ marshalAttribute Value_text EmptyString EmptyString (mkAttribute "m" (Value_ofMap []))
     = ("m = {" ++ newline ++ "}" ++ newline, Ok tt).
Proof.
  destruct (empty_list_and_map_are_present noAttrSchema Value_text
              (plainMeta "[]int") true (mkStructField "l" EmptyString false)
              (wordTag durationType (mkStructField "l" EmptyString false)) EmptyString EmptyString
              eq_refl eq_refl eq_refl) as ((_ & _ & Hl) & _).
  destruct (empty_list_and_map_are_present noAttrSchema Value_text
              (plainMeta "map[string]int") true (mkStructField "m" EmptyString false)
              (wordTag durationType (mkStructField "m" EmptyString false)) EmptyString EmptyString
              eq_refl eq_refl eq_refl) as (_ & (_ & _ & Hm)).
  split; [exact Hl|exact Hm].
Defined.

(** C8 as stated fails for the mapping: the record whose attribute [m] holds
    an empty map marshals to [m = {], a line break, and the closing brace on
    a line of its own, not to the one line [m = {}]. *)
Lemma empty_map_is_not_one_line :
  exMarshal [exField "m" EmptyString (reflect.VMap exMapType false [])]
  = ("m = {" ++ newline ++ "}" ++ newline, Ok tt)
  /\ fst (exMarshal [exField "m" EmptyString (reflect.VMap exMapType false [])])
     <> "m = {}" ++ newline
  /\ forall valueText : Value -> string,
       Marshal (fieldsOf [exField "m" EmptyString (reflect.VMap exMapType false [])])
         wordTag noBlockSchema noAttrSchema valueText 2 exRecord
       = ("m = {" ++ newline ++ "}" ++ newline, Ok tt).
Proof.
  split; [reflexivity|]. split; [vm_compute; discriminate|].
  intros valueText. reflexivity.
Qed.

(** ** Blank lines between entries *)

Lemma marshalEntries_loop_spec (valueText : Value -> string) (indent : string)
  (n : Z) (entries : list Entry) :
  forall (i : Z) (w : string),
    i + Z.of_nat (List.length entries) = n ->
    marshalEntries_loop valueText (marshalBlock valueText) indent n i entries w
    = renderEntries valueText w indent entries.
Proof.
  induction entries as [|[attribute block comments] rest IH]; intros i w Hn;
    [reflexivity|].
  simpl List.length in Hn.
  cbn [marshalEntries_loop renderEntries Entry_Block Entry_Attribute Entry_Comments].
  destruct block as [block|].
  - destruct (marshalBlock valueText _ indent block) as [w' [[]| | |]];
      try reflexivity.
    rewrite IH by lia. f_equal.
    destruct rest as [|e rest'].
    + simpl in Hn. replace (i =? n - 1) with true by (symmetry; lia).
      simpl. now rewrite append_nil_r.
    + simpl List.length in Hn.
      replace (i =? n - 1) with false by (symmetry; lia). reflexivity.
  - destruct attribute as [attribute|]; [|reflexivity].
    destruct (marshalAttribute valueText _ indent attribute) as [w' [[]| | |]];
      try reflexivity.
    apply IH. lia.
Qed.

(** C9. [marshalEntries], which compares the index of the entry with the
    length of the sequence, writes what the rule of the spec asks for: a
    blank line after a Block Entry exactly when a sibling follows it, and
    none after an Attribute Entry. *)
Theorem blank_line_after_block_unless_last (valueText : Value -> string)
  (w indent : string) (entries : list Entry) :
  marshalEntries valueText w indent entries
  = renderEntries valueText w indent entries.
Proof.
  unfold marshalEntries, marshalEntries_body.
  apply marshalEntries_loop_spec. lia.
Qed.

(** Two blocks around an attribute: a blank line after the first block, none
    after the attribute, none after the last block. *)
Example blank_lines_example :
  marshalEntries Value_text EmptyString EmptyString
    [exEmptyBlock "a"; exEmptyBlock "b"; exAttr "k" 1; exEmptyBlock "c"]
  = ("a {" ++ newline ++ "}" ++ newline
     ++ newline
     ++ "b {" ++ newline ++ "}" ++ newline
     ++ newline
     ++ "k = 1" ++ newline
     ++ "c {" ++ newline ++ "}" ++ newline, Ok tt).
Proof. reflexivity. Qed.

(** ** The Struct Encoder, field by field *)

Section Fields.
Variable flattenFields : reflect.Value -> Result (list field).
Variable parseTag : reflect.Type_ -> StructField -> tag.
Variable sliceToBlockSchema : reflect.Type_ -> tag -> Result Block.
Variable attrSchema : reflect.Type_ -> Result Value.

Let loop := structToEntries_loop parseTag sliceToBlockSchema attrSchema.

(** [structToEntries] is the loop over what the enumerator returns. *)
Lemma structToEntries_unfold (fuel : nat) (v : reflect.Value) (schema : bool) :
  structToEntries flattenFields parseTag sliceToBlockSchema attrSchema
    (S fuel) v schema
  = (fields <- flattenFields v ;;
     loop (structToEntries flattenFields parseTag sliceToBlockSchema
             attrSchema fuel)
       (reflect.Value_Type v) schema fields ([], [])).
Proof. reflexivity. Qed.

(** The labels only grow along the loop. *)
Lemma loop_labels_grow ste t schema fields :
  forall entries labels entries' labels',
    loop ste t schema fields (entries, labels) = Ok (entries', labels') ->
    exists new, labels' = (labels ++ new)%list.
Proof.
  induction fields as [|f rest IH]; intros entries labels entries' labels' H.
  - inversion H; subst. exists []. now rewrite app_nil_r.
  - unfold loop in H. cbn [structToEntries_loop] in H.
    destruct (structToEntries_field _ _ _ _ _ _ f (entries, labels))
      as [[es ls]| | |] eqn:Ef; try discriminate H.
    simpl in H. apply IH in H. destruct H as [new ->].
    assert (Hls : exists one, ls = (labels ++ one)%list).
    { unfold structToEntries_field in Ef.
      destruct (tag_label _).
      - destruct schema; inversion Ef; subst; eauto.
      - destruct (tag_block _).
        + destruct (reflect.Kind_eqb _ _).
          * destruct (if schema then _ else _) as [bs| | |];
              simpl in Ef; inversion Ef; subst.
            exists []. now rewrite app_nil_r.
          * destruct (valueToBlock_body _ _ _ _) as [b| | |];
              simpl in Ef; inversion Ef; subst.
            exists []. now rewrite app_nil_r.
        + destruct (_ && _).
          * inversion Ef; subst. exists []. now rewrite app_nil_r.
          * destruct (fieldToAttr _ _ _ _) as [a| | |];
              simpl in Ef; inversion Ef; subst.
            exists []. now rewrite app_nil_r. }
    destruct Hls as [one ->]. exists (one ++ new)%list.
    now rewrite app_assoc.
Qed.

(** C10. In schema mode, a block-tagged field holding a slice whose
    representative schema encode returns an error adds no Entry and raises
    no error: the loop goes on with the remaining fields, the entries as
    they were (and the labels too, unless the tag is a label as well). *)
Theorem schema_block_failure_is_omitted ste t f rest entries labels e :
  tag_block (parseTag t (field_t f)) = true ->
  reflect.Value_Kind (field_v f) = reflect.Slice ->
  sliceToBlockSchema (reflect.Value_Type (field_v f)) (parseTag t (field_t f))
  = Err e ->
  loop ste t true (f :: rest) (entries, labels)
  = loop ste t true rest
      (entries,
       if tag_label (parseTag t (field_t f))
       then (labels ++ [tag_name (parseTag t (field_t f))])%list
       else labels).
Proof.
  intros Hb Hk He. unfold loop. cbn [structToEntries_loop].
  unfold structToEntries_field.
  destruct (tag_label _); [reflexivity|].
  rewrite Hb, Hk, He. simpl. now rewrite app_nil_r.
Qed.

(** C3, amended. A field whose tag marks it optional and neither label nor
    block, and whose value is the zero value: in data mode the loop goes
    on as if the field were not there; in schema mode the field gets the
    Attribute Entry of its placeholder, when the schema encoder gives
    one. *)
Theorem optional_zero_field ste t f rest entries labels :
  tag_optional (parseTag t (field_t f)) = true ->
  reflect.IsZero (field_v f) = true ->
  tag_label (parseTag t (field_t f)) = false ->
  tag_block (parseTag t (field_t f)) = false ->
  loop ste t false (f :: rest) (entries, labels)
  = loop ste t false rest (entries, labels)
  /\ forall value,
       attrSchema (reflect.Value_Type (field_v f)) = Ok value ->
       loop ste t true (f :: rest) (entries, labels)
       = loop ste t true rest
           ((entries ++
             [mkEntry (Some (mkAttribute (tag_name (parseTag t (field_t f))) value))
                      None (tag_comments (parseTag t (field_t f)))])%list,
            labels).
Proof.
  intros Ho Hz Hl Hb. unfold loop. cbn [structToEntries_loop].
  unfold structToEntries_field. rewrite Hl, Hb, Ho, Hz. simpl.
  split; [reflexivity|].
  intros value Hv. unfold fieldToAttr. now rewrite Hv.
Qed.
Lemma loop_app ste t schema l1 l2 acc :
  loop ste t schema (l1 ++ l2)%list acc
  = (acc' <- loop ste t schema l1 acc ;; loop ste t schema l2 acc').
Proof.
  unfold loop. revert acc.
  induction l1 as [|f l1 IH]; intros acc; [reflexivity|].
  simpl. destruct (structToEntries_field _ _ _ ste t schema f acc); simpl; auto.
Qed.

(** Seen from the record: in schema mode the record with such a block field
    encodes as the record without it. *)
Lemma schema_block_failure_record fuel v v' pre f rest e :
  flattenFields v = Ok (pre ++ f :: rest)%list ->
  flattenFields v' = Ok (pre ++ rest)%list ->
  reflect.Value_Type v' = reflect.Value_Type v ->
  tag_label (parseTag (reflect.Value_Type v) (field_t f)) = false ->
  tag_block (parseTag (reflect.Value_Type v) (field_t f)) = true ->
  reflect.Value_Kind (field_v f) = reflect.Slice ->
  sliceToBlockSchema (reflect.Value_Type (field_v f))
    (parseTag (reflect.Value_Type v) (field_t f)) = Err e ->
  structToEntries flattenFields parseTag sliceToBlockSchema attrSchema
    (S fuel) v true
  = structToEntries flattenFields parseTag sliceToBlockSchema attrSchema
      (S fuel) v' true.
Proof.
  intros Hv Hv' Ht Hl Hb Hk He.
  rewrite !structToEntries_unfold, Hv, Hv', Ht. simpl.
  rewrite !loop_app.
  destruct (loop _ _ _ pre _) as [[entries labels]| | |]; try reflexivity.
  cbn [bind]. unfold loop. cbn [structToEntries_loop].
  unfold structToEntries_field. rewrite Hl, Hb, Hk, He. simpl.
  now rewrite app_nil_r.
Qed.

(** Seen from the record: in data mode the record with an optional
    zero-valued attribute field encodes as the record without it. *)
Lemma optional_zero_field_record fuel v v' pre f rest :
  flattenFields v = Ok (pre ++ f :: rest)%list ->
  flattenFields v' = Ok (pre ++ rest)%list ->
  reflect.Value_Type v' = reflect.Value_Type v ->
  tag_label (parseTag (reflect.Value_Type v) (field_t f)) = false ->
  tag_block (parseTag (reflect.Value_Type v) (field_t f)) = false ->
  tag_optional (parseTag (reflect.Value_Type v) (field_t f)) = true ->
  reflect.IsZero (field_v f) = true ->
  structToEntries flattenFields parseTag sliceToBlockSchema attrSchema
    (S fuel) v false
  = structToEntries flattenFields parseTag sliceToBlockSchema attrSchema
      (S fuel) v' false.
Proof.
  intros Hv Hv' Ht Hl Hb Ho Hz.
  rewrite !structToEntries_unfold, Hv, Hv', Ht. simpl.
  rewrite !loop_app.
  destruct (loop _ _ _ pre _) as [[entries labels]| | |]; try reflexivity.
  cbn [bind]. unfold loop. cbn [structToEntries_loop].
  unfold structToEntries_field. now rewrite Hl, Hb, Ho, Hz.
Qed.

(** *** The recursion budget

    What [structToEntries] returns within a budget it returns within every
    larger one: a result other than [Diverge] is the result of the Go
    call. *)

Lemma bind_returns {A B : Type} (r : Result A) (k : A -> Result B) :
  bind r k <> Diverge -> r <> Diverge.
Proof. destruct r; simpl; congruence. Qed.

Lemma valueToBlock_body_mono ste ste' v tg schema :
  refines ste ste' ->
  valueToBlock_body ste v tg schema <> Diverge ->
  valueToBlock_body ste' v tg schema = valueToBlock_body ste v tg schema.
Proof.
  unfold valueToBlock_body. intros H Hd.
  now rewrite (H v schema (bind_returns _ _ Hd)).
Qed.

Lemma sliceToBlocks_loop_mono ste ste' tg elems :
  refines ste ste' ->
  forall blocks,
    sliceToBlocks_loop ste elems tg blocks <> Diverge ->
    sliceToBlocks_loop ste' elems tg blocks = sliceToBlocks_loop ste elems tg blocks.
Proof.
  intros H. induction elems as [|el rest IH]; intros blocks Hd; [reflexivity|].
  cbn [sliceToBlocks_loop] in *.
  rewrite (valueToBlock_body_mono ste ste' _ _ _ H (bind_returns _ _ Hd)).
  destruct (valueToBlock_body ste el tg false) as [block| | |]; try reflexivity.
  simpl in *. now apply IH.
Qed.

Lemma structToEntries_field_mono ste ste' t schema f acc :
  refines ste ste' ->
  structToEntries_field parseTag sliceToBlockSchema attrSchema ste t schema f acc
  <> Diverge ->
  structToEntries_field parseTag sliceToBlockSchema attrSchema ste' t schema f acc
  = structToEntries_field parseTag sliceToBlockSchema attrSchema ste t schema f acc.
Proof.
  intros H. unfold structToEntries_field. destruct acc as [entries labels].
  destruct (tag_label _); [reflexivity|].
  destruct (tag_block _); [|reflexivity].
  destruct (reflect.Kind_eqb _ _).
  - destruct schema; [reflexivity|].
    intros Hd. apply bind_returns in Hd.
    unfold sliceToBlocks_body in *.
    destruct (field_v f); try reflexivity.
    now rewrite (sliceToBlocks_loop_mono ste ste' _ _ H _ Hd).
  - intros Hd. apply bind_returns in Hd.
    now rewrite (valueToBlock_body_mono ste ste' _ _ _ H Hd).
Qed.

Lemma loop_mono ste ste' t schema fields :
  refines ste ste' ->
  forall acc,
    loop ste t schema fields acc <> Diverge ->
    loop ste' t schema fields acc = loop ste t schema fields acc.
Proof.
  intros H. unfold loop.
  induction fields as [|f rest IH]; intros acc Hd; [reflexivity|].
  cbn [structToEntries_loop] in *.
  rewrite (structToEntries_field_mono ste ste' _ _ _ _ H (bind_returns _ _ Hd)).
  destruct (structToEntries_field _ _ _ ste t schema f acc) as [acc'| | |];
    try reflexivity.
  simpl in *. now apply IH.
Qed.

Lemma structToEntries_more_fuel (fuel extra : nat) :
  refines
    (structToEntries flattenFields parseTag sliceToBlockSchema attrSchema fuel)
    (structToEntries flattenFields parseTag sliceToBlockSchema attrSchema
       (fuel + extra)).
Proof.
  induction fuel as [|fuel IH]; intros v schema Hd; [now elim Hd|].
  replace (S fuel + extra)%nat with (S (fuel + extra)) by reflexivity.
  rewrite !structToEntries_unfold in *.
  destruct (flattenFields v) as [fields| | |]; try reflexivity.
  simpl in *. now apply loop_mono.
Qed.

(** A label-classified field leaves a label behind. *)
Lemma label_field_gives_labels ste t schema fields entries labels :
  Exists (fun f => tag_label (parseTag t (field_t f)) = true) fields ->
  forall entries0 labels0,
    loop ste t schema fields (entries0, labels0) = Ok (entries, labels) ->
    labels <> [].
Proof.
  induction 1 as [f rest Hf|f rest _ IH]; intros entries0 labels0 H;
    unfold loop in H; cbn [structToEntries_loop] in H.
  - unfold structToEntries_field in H. rewrite Hf in H.
    destruct schema; simpl in H; apply loop_labels_grow in H;
      destruct H as [new ->]; now destruct labels0.
  - destruct (structToEntries_field _ _ _ ste t schema f (entries0, labels0))
      as [[es ls]| | |]; try discriminate H.
    simpl in H. now apply IH in H.
Qed.

(** X19. A top-level record with a label-classified field never gives an
    AST: when its fields encode, [MarshalToAST] returns the label error. *)
Lemma top_level_label_field_is_error (fuel : nat) (m : reflect.meta)
  (s : reflect.Value) (fields : list field) (ast : AST) :
  reflect.Value_Kind s = reflect.Struct ->
  flattenFields s = Ok fields ->
  Exists (fun f => tag_label (parseTag (reflect.Value_Type s) (field_t f)) = true)
    fields ->
  MarshalToAST flattenFields parseTag sliceToBlockSchema attrSchema fuel
    (Some (reflect.VPtr m (Some s))) <> Ok ast.
Proof.
  intros Hk Hf Hl. unfold MarshalToAST, marshalToAST. simpl. rewrite Hk. simpl.
  destruct fuel as [|fuel]; [discriminate|].
  rewrite structToEntries_unfold, Hf. simpl.
  destruct (loop _ _ _ _ _) as [[entries labels]| | |] eqn:E; try discriminate.
  apply label_field_gives_labels in E; [|exact Hl].
  simpl. destruct labels; [now elim E|discriminate].
Qed.

End Fields.

Lemma exStructToEntries_loop (attrSchema : reflect.Type_ -> Result Value)
  (fields : list field) (schema : bool) :
  exStructToEntries attrSchema fields schema
  = structToEntries_loop wordTag noBlockSchema attrSchema
      (structToEntries (fieldsOf fields) wordTag noBlockSchema attrSchema 1)
      (reflect.Value_Type exStruct) schema fields ([], []).
Proof. reflexivity. Qed.

Lemma schema_block_failure_is_omitted_witness :
  exStructToEntries emptyAttrSchema
    [exField "items" "block" exInners; exField "k" EmptyString (exInt 1)] true
  = Ok ([mkEntry (Some (mkAttribute "k" (Value_ofStr EmptyString))) None []], []).
Proof.
  rewrite exStructToEntries_loop.
  rewrite (schema_block_failure_is_omitted wordTag noBlockSchema emptyAttrSchema
             _ _ (exField "items" "block" exInners) _ [] [] "no schema"
             eq_refl eq_refl eq_refl).
  reflexivity.
Defined.

Lemma optional_zero_field_witness :
  exStructToEntries emptyAttrSchema
    [exField "n" "optional" (exInt 0); exField "k" EmptyString (exInt 1)] false
  = Ok ([mkEntry (Some (mkAttribute "k"
                          (Value_ofNumber (big.mkFloat 53 false big.finite (2 ^ 63) 1))))
           None []], [])
  /\ exStructToEntries emptyAttrSchema [exField "n" "optional" (exInt 0)] true
     = Ok ([mkEntry (Some (mkAttribute "n" (Value_ofStr EmptyString))) None []], []).
Proof.
  rewrite !exStructToEntries_loop. split.
  - rewrite (proj1 (optional_zero_field wordTag noBlockSchema emptyAttrSchema
                      _ _ (exField "n" "optional" (exInt 0)) _ [] []
                      eq_refl eq_refl eq_refl eq_refl)).
    reflexivity.
  - rewrite (proj2 (optional_zero_field wordTag noBlockSchema emptyAttrSchema
                      _ _ (exField "n" "optional" (exInt 0)) _ [] []
                      eq_refl eq_refl eq_refl eq_refl) (Value_ofStr EmptyString) eq_refl).
    reflexivity.
Defined.

(** C3 as stated fails where the tag marks the field as something else
    too.  A field marked optional and block holding a zero-valued record
    gets a Block Entry in data mode; a field marked optional and label
    holding the empty string gets no Entry in schema mode, only a label. *)
Lemma optional_zero_field_with_other_mark :
  let b := exField "inner" "block,optional" exInner in
  let l := exField "Name" "label,optional" (exString EmptyString) in
  (tag_optional (wordTag (reflect.Value_Type exStruct) (field_t b)) = true
   /\ reflect.IsZero (field_v b) = true
   /\ exStructToEntries emptyAttrSchema [b] false
      = Ok ([mkEntry None (Some (mkBlock "inner" [] [])) []], []))
  /\ (tag_optional (wordTag (reflect.Value_Type exStruct) (field_t l)) = true
      /\ reflect.IsZero (field_v l) = true
      /\ exStructToEntries emptyAttrSchema [l] true = Ok ([], ["Name"])).
Proof. repeat split. Qed.

(** ** The scenario of the spec *)

Example thing_scenario :
  Marshal (fieldsByType exThingTable) wordTag noBlockSchema noAttrSchema
    Value_text 2 exRecord
  = ("thing " ++ Quote "x" ++ " {" ++ newline
     ++ "  tags = [" ++ Quote "a" ++ ", " ++ Quote "b" ++ "]" ++ newline
     ++ "}" ++ newline, Ok tt).
Proof. reflexivity. Qed.

(** The panic of an unsupported type leaves [Marshal] with nothing
    written. *)
Example unsupported_type_aborts_Marshal :
  exMarshal [exField "k" EmptyString (exInt 1); exField "c" EmptyString exChan]
  = (EmptyString, Panic "chan int").
Proof. reflexivity. Qed.

(** * Further properties *)

(** ** Induction on nested values *)

Lemma Value_nested_ind (P : Value -> Prop) :
  (forall s n b list hl map hm,
      Forall P list ->
      Forall (fun e => P (MapEntry_Key e) /\ P (MapEntry_Value e)) map ->
      P (mkValue s n b list hl map hm)) ->
  forall v, P v.
Proof.
  intros H. fix IH 1. intros [s n b list hl map hm]. apply H.
  - induction list as [|x l IHl]; constructor; [apply IH|exact IHl].
  - induction map as [|[k x c] l IHl]; constructor; [|exact IHl].
    split; apply IH.
Qed.

Lemma Block_nested_ind (P : Block -> Prop) :
  (forall name labels body,
      Forall (fun e => forall b, Entry_Block e = Some b -> P b) body ->
      P (mkBlock name labels body)) ->
  forall b, P b.
Proof.
  intros H. fix IH 1. intros [name labels body]. apply H.
  induction body as [|[a [b|] c] l IHl]; constructor; try exact IHl.
  - intros b' Hb. simpl in Hb. injection Hb as <-. apply IH.
  - intros b' Hb. discriminate Hb.
Qed.

Lemma reflect_Value_nested_ind (P : reflect.Value -> Prop) :
  (forall m b, P (reflect.VBool m b)) ->
  (forall m k i, P (reflect.VInt m k i)) ->
  (forall m k u, P (reflect.VUint m k u)) ->
  (forall m k f, P (reflect.VFloat m k f)) ->
  (forall m s, P (reflect.VString m s)) ->
  (forall m isnil elems, Forall P elems -> P (reflect.VSlice m isnil elems)) ->
  (forall m isnil kvs, Forall (fun kv => P (fst kv) /\ P (snd kv)) kvs ->
                       P (reflect.VMap m isnil kvs)) ->
  (forall m fields, Forall P fields -> P (reflect.VStruct m fields)) ->
  (forall m z s, P (reflect.VTime m z s)) ->
  (forall m target, (forall x, target = Some x -> P x) -> P (reflect.VPtr m target)) ->
  (forall m k z, P (reflect.VOther m k z)) ->
  forall v, P v.
Proof.
  intros Hb Hi Hu Hf Hs Hsl Hm Hst Ht Hp Ho. fix IH 1.
  intros [m b|m k i|m k u|m k f|m s|m n l|m n l|m l|m z s|m t|m k z];
    [apply Hb|apply Hi|apply Hu|apply Hf|apply Hs| | | |apply Ht| |apply Ho].
  - apply Hsl. induction l as [|x l IHl]; constructor; [apply IH|exact IHl].
  - apply Hm. induction l as [|[k x] l IHl]; constructor; [|exact IHl].
    split; apply IH.
  - apply Hst. induction l as [|x l IHl]; constructor; [apply IH|exact IHl].
  - apply Hp. destruct t as [x|]; intros y Hy; [|discriminate].
    injection Hy as <-. apply IH.
Qed.

(** ** The renderer, function by function *)

Section RendererFacts.
Variable valueText : Value -> string.

Lemma fold_left_appends {A : Type} (f : A -> string) (l : list A) (w : string) :
  fold_left (fun w x => w ++ f x) l w
  = w ++ fold_left (fun w x => w ++ f x) l EmptyString.
Proof.
  revert w. induction l as [|x l IH]; intros w; simpl.
  - now rewrite append_nil_r.
  - rewrite IH. rewrite (IH (f x)). now rewrite append_assoc.
Qed.

Lemma marshalComments_appends (w indent : string) (comments : list string) :
  marshalComments w indent comments
  = w ++ marshalComments EmptyString indent comments.
Proof.
  unfold marshalComments.
  apply (fold_left_appends (fun comment => indent ++ comment ++ newline)).
Qed.

Lemma marshalMap_body_loop mv w indent entries :
  marshalMap_body valueText mv w indent entries
  = marshalMap_loop valueText mv indent entries (w ++ "{" ++ newline).
Proof.
  unfold marshalMap_body. generalize (w ++ "{" ++ newline).
  induction entries as [|[key value comments] rest IH]; intros w'; simpl.
  - reflexivity.
  - destruct (mv _ _ value) as [w'' [[]| | |]]; try reflexivity. apply IH.
Qed.

Lemma marshalMap_loop_writes indent entries :
  Forall (fun e => forall indent, exists out, forall w,
              marshalValue valueText w indent (MapEntry_Value e) = (w ++ out, Ok tt))
    entries ->
  exists out, forall w,
    marshalMap_loop valueText (marshalValue valueText) indent entries w
    = (w ++ out, mapOutcome indent).
Proof.
  induction 1 as [|[key value comments] rest Hv _ [R HR]].
  - unfold mapOutcome. cbn [marshalMap_loop]. unfold dropLast2.
    destruct (String.length indent <? 2)%nat.
    + exists EmptyString. intros w. now rewrite append_nil_r.
    + eexists. intros w. reflexivity.
  - destruct (Hv (indent ++ "  ")) as [V HV].
    exists (marshalComments EmptyString indent comments
            ++ indent ++ valueText key ++ ": " ++ V ++ "," ++ newline ++ R).
    intros w. cbn [marshalMap_loop].
    rewrite marshalComments_appends, HV, HR. f_equal.
    now rewrite !append_assoc.
Qed.

Lemma mapOutcome_indent (indent : string) : mapOutcome (indent ++ "  ") = Ok tt.
Proof.
  unfold mapOutcome. rewrite length_append. simpl String.length.
  now replace (String.length indent + 2 <? 2)%nat with false
    by (symmetry; apply Nat.ltb_ge; lia).
Qed.

Lemma marshalValue_writes (value : Value) :
  forall indent, exists out, forall w,
    marshalValue valueText w indent value = (w ++ out, Ok tt).
Proof.
  induction value as [s n b list hl map hm _ Hmap] using Value_nested_ind.
  intros indent. cbn [marshalValue]. destruct hm.
  - destruct (marshalMap_loop_writes (indent ++ "  ") map) as [out Hout].
    { eapply Forall_impl; [|exact Hmap]. now intros e [_ He]. }
    exists ("{" ++ newline ++ out). intros w.
    rewrite marshalMap_body_loop, Hout, mapOutcome_indent.
    now rewrite !append_assoc.
  - eexists. intros w. reflexivity.
Qed.

Lemma marshalAttribute_writes (indent : string) (attribute : Attribute) :
  exists out, forall w,
    marshalAttribute valueText w indent attribute = (w ++ out, Ok tt).
Proof.
  destruct (marshalValue_writes (Attribute_Value attribute) indent) as [V HV].
  exists (indent ++ Attribute_Key attribute ++ " = " ++ V ++ newline).
  intros w. unfold marshalAttribute. rewrite HV. now rewrite !append_assoc.
Qed.

Lemma marshalEntries_loop_writes indent n entries :
  Forall (fun e => forall b, Entry_Block e = Some b ->
            forall indent, exists out, forall w,
              marshalBlock valueText w indent b
              = (w ++ out, renderOutcome (Block_Body b)))
    entries ->
  forall i, exists out, forall w,
    marshalEntries_loop valueText (marshalBlock valueText) indent n i entries w
    = (w ++ out, renderOutcome entries).
Proof.
  induction 1 as [|[attribute block comments] rest Hb _ IH]; intros i.
  - exists EmptyString. intros w. simpl. now rewrite append_nil_r.
  - cbn [marshalEntries_loop]. unfold renderOutcome. cbn [forallb].
    destruct block as [block|].
    + destruct (Hb block eq_refl indent) as [B HB].
      destruct (IH (i + 1)) as [R HR].
      destruct block as [name labels body].
      replace (renderable (mkEntry attribute (Some (mkBlock name labels body)) comments))
        with (forallb renderable body) by (destruct attribute; reflexivity).
      unfold renderOutcome in HB, HR. cbn [Block_Body] in HB.
      destruct (forallb renderable body).
      * exists (marshalComments EmptyString indent comments ++ B
                ++ (if negb (i =? n - 1) then newline else EmptyString) ++ R).
        intros w. rewrite marshalComments_appends, HB.
        destruct (negb (i =? n - 1)); rewrite HR; cbn [andb]; f_equal;
          rewrite ?append_assoc; reflexivity.
      * exists (marshalComments EmptyString indent comments ++ B).
        intros w. rewrite marshalComments_appends, HB.
        now rewrite !append_assoc.
    + destruct attribute as [attribute|].
      * destruct (marshalAttribute_writes indent attribute) as [A HA].
        destruct (IH (i + 1)) as [R HR]. unfold renderOutcome in HR.
        exists (marshalComments EmptyString indent comments ++ A ++ R).
        intros w. rewrite marshalComments_appends, HA, HR. cbn [renderable andb].
        now rewrite !append_assoc.
      * exists (marshalComments EmptyString indent comments).
        intros w. now rewrite marshalComments_appends.
Qed.

Lemma marshalBlock_writes (block : Block) :
  forall indent, exists out, forall w,
    marshalBlock valueText w indent block
    = (w ++ out, renderOutcome (Block_Body block)).
Proof.
  induction block as [name labels body Hbody] using Block_nested_ind.
  intros indent.
  destruct (marshalEntries_loop_writes (indent ++ "  ")
              (Z.of_nat (List.length body)) body Hbody 0) as [E HE].
  cbn [marshalBlock Block_Body]. unfold marshalEntries_body.
  unfold renderOutcome in *.
  destruct (forallb renderable body).
  - exists (indent ++ name ++ " "
            ++ fold_left (fun w label => w ++ Quote label ++ " ") labels EmptyString
            ++ "{" ++ newline ++ E ++ indent ++ "}" ++ newline).
    intros w.
    rewrite (fold_left_appends (fun label => Quote label ++ " ")), HE.
    now rewrite !append_assoc.
  - exists (indent ++ name ++ " "
            ++ fold_left (fun w label => w ++ Quote label ++ " ") labels EmptyString
            ++ "{" ++ newline ++ E).
    intros w.
    rewrite (fold_left_appends (fun label => Quote label ++ " ")), HE.
    now rewrite !append_assoc.
Qed.

Lemma marshalEntries_writes (indent : string) (entries : list Entry) :
  exists out, forall w,
    marshalEntries valueText w indent entries = (w ++ out, renderOutcome entries).
Proof.
  unfold marshalEntries, marshalEntries_body.
  apply marshalEntries_loop_writes.
  rewrite Forall_forall. intros e _ b _. apply marshalBlock_writes.
Qed.
End RendererFacts.

(** ** The renderer: what it writes and how it ends *)



(** X3. The renderer only appends: what it writes, and how it ends, does
    not depend on what the writer already holds. *)
Theorem renderer_appends (valueText : Value -> string)
  (w indent : string) (entries : list Entry) :
  marshalEntries valueText w indent entries
  = (w ++ fst (marshalEntries valueText EmptyString indent entries),
     snd (marshalEntries valueText EmptyString indent entries)).
Proof.
  destruct (marshalEntries_writes valueText indent entries) as [out H].
  now rewrite !H.
Qed.

(** ** Invariants of the Value Encoder *)

Lemma encodeElems_ok (elems : list reflect.Value) :
  forall acc list,
    encodeElems valueToValue elems acc = Ok list ->
    exists new, list = (acc ++ new)%list
                /\ Forall2 (fun el x => valueToValue el = Ok x) elems new.
Proof.
  induction elems as [|el rest IH]; intros acc list H; simpl in H.
  - inversion H; subst. exists []. now rewrite app_nil_r.
  - destruct (valueToValue el) as [x| | |] eqn:Ex; try discriminate H.
    simpl in H. apply IH in H. destruct H as (new & -> & Hnew).
    exists (x :: new). split; [now rewrite <- app_assoc|now constructor].
Qed.

Lemma encodeElems_total (elems : list reflect.Value) (acc : list Value) :
  Forall (fun el => exists x, valueToValue el = Ok x) elems ->
  exists list, encodeElems valueToValue elems acc = Ok list.
Proof.
  intros H. revert acc. induction H as [|el rest [x Hx] _ IH]; intros acc; simpl.
  - now exists acc.
  - rewrite Hx. simpl. apply IH.
Qed.


Lemma oneVariant_sound_map (sorted : list (reflect.Value * reflect.Value))
  (entries : list MapEntry) :
  Forall (fun kv => forall x, valueToValue (snd kv) = Ok x -> oneVariant x = true)
    sorted ->
  Forall2 entryOf sorted entries ->
  forallb (fun e => match e with
                    | mkMapEntry key value _ => isStr key && oneVariant value
                    end) entries = true.
Proof.
  intros Hall H. induction H as [|kv [k x c] l l' (Hk & Hv & _) _ IH]; [reflexivity|].
  inversion Hall as [|? ? Hkv Hl]; subst. simpl in *.
  rewrite Hk, (Hkv _ Hv), IH by assumption. reflexivity.
Qed.

Lemma oneVariant_ofList (list : list Value) :
  oneVariant (Value_ofList list) = forallb oneVariant list.
Proof. now destruct list. Qed.

Lemma oneVariant_ofMap (entries : list MapEntry) :
  oneVariant (Value_ofMap entries)
  = forallb (fun e => match e with
                      | mkMapEntry key value _ => isStr key && oneVariant value
                      end) entries.
Proof. now destruct entries. Qed.

(** X6. Every Value the Value Encoder returns has exactly one variant
    populated, at every depth, and the keys of its map entries are [Str]
    values. *)
Theorem encoded_value_has_one_variant (v : reflect.Value) :
  forall x, valueToValue v = Ok x -> oneVariant x = true.
Proof.
  induction v as [m b|m k i|m k u|m k f|m s|m n elems IH|m n kvs IH|m fields _
                 |m z s|m t _|m k z] using reflect_Value_nested_ind;
    intros x; cbn [valueToValue]; unfold implements; cbn [reflect.meta_of];
    (destruct (reflect.Type_eqb _ durationType);
     [try discriminate; intros H; inversion H; reflexivity|]);
    (destruct (reflect.MarshalText m) as [[tm| | |]|];
     [simpl; intros H; inversion H; reflexivity|discriminate..|]);
    (destruct (reflect.MarshalJSON m) as [[jm| | |]|];
     [simpl; intros H; inversion H; reflexivity|discriminate..|]).
  - intros H; inversion H; reflexivity.
  - simpl. intros H; inversion H; reflexivity.
  - simpl. intros H; inversion H; reflexivity.
  - destruct (big.NewFloat f); simpl; try discriminate.
    intros H; inversion H; reflexivity.
  - destruct (String.eqb _ _); try discriminate.
    intros H; inversion H; reflexivity.
  - destruct (encodeElems valueToValue elems []) as [list| | |] eqn:E;
      try discriminate.
    simpl. intros H; inversion H; subst. rewrite oneVariant_ofList.
    apply encodeElems_ok in E. destruct E as (new & -> & Hnew). simpl.
    clear -IH Hnew. induction Hnew as [|el y l l' Hy _ IHl]; [reflexivity|].
    inversion IH; subst. simpl. rewrite (H1 _ Hy). now apply IHl.
  - fold encodePair. rewrite sortSlice_encodePair.
    destruct (encodeMapEntries _ _) as [entries| | |] eqn:E; try discriminate.
    simpl. intros H; inversion H; subst. rewrite oneVariant_ofMap.
    apply encodeMapEntries_ok in E. destruct E as (new & -> & Hnew). simpl.
    apply (oneVariant_sound_map (sortSlice keyLess kvs)); [|exact Hnew].
    rewrite Forall_forall in IH |- *. intros kv Hin.
    apply IH. eapply Permutation_in; [apply (sortSlice_perm keyString)|exact Hin].
  - destruct (reflect.Type_eqb _ timeType); discriminate.
  - destruct (reflect.Type_eqb _ timeType); try discriminate.
    intros H; inversion H; reflexivity.
  - destruct (reflect.Type_eqb _ timeType); discriminate.
  - destruct (reflect.Type_eqb _ timeType); discriminate.
Qed.

(** ** The Struct Encoder, turn by turn *)

Section StructFacts.
Variable flattenFields : reflect.Value -> Result (list field).
Variable parseTag : reflect.Type_ -> StructField -> tag.
Variable sliceToBlockSchema : reflect.Type_ -> tag -> Result Block.
Variable attrSchema : reflect.Type_ -> Result Value.

Let loop := structToEntries_loop parseTag sliceToBlockSchema attrSchema.
Let step := structToEntries_field parseTag sliceToBlockSchema attrSchema.

(** The blocks of a slice, one per element. *)
Lemma sliceToBlocks_loop_ok ste tg elems :
  forall acc blocks,
    sliceToBlocks_loop ste elems tg acc = Ok blocks ->
    exists new,
      blocks = (acc ++ new)%list
      /\ Forall2 (fun el b => Block_Name b = tag_name tg
                              /\ ste el false = Ok (Block_Body b, Block_Labels b))
           elems new.
Proof.
  induction elems as [|el rest IH]; intros acc blocks H; simpl in H.
  - inversion H; subst. exists []. now rewrite app_nil_r.
  - unfold valueToBlock_body in H at 1.
    destruct (ste el false) as [[body labels]| | |] eqn:E; try discriminate H.
    simpl in H. apply IH in H. destruct H as (new & -> & Hnew).
    exists (mkBlock (tag_name tg) labels body :: new).
    split; [now rewrite <- app_assoc|]. constructor; [|exact Hnew]. now split.
Qed.

(** What one turn of the loop does to the labels. *)
Lemma step_labels ste t schema f entries labels entries' labels' :
  step ste t schema f (entries, labels) = Ok (entries', labels') ->
  labels' = (labels ++ (if isLabel parseTag t f
                        then [labelOf parseTag t schema f] else []))%list.
Proof.
  unfold step, structToEntries_field, isLabel, labelOf.
  destruct (tag_label _).
  - destruct schema; intros H; inversion H; reflexivity.
  - rewrite app_nil_r. destruct (tag_block _).
    + destruct (reflect.Kind_eqb _ _).
      * destruct (if schema then _ else _) as [bs| | |]; simpl;
          intros H; inversion H; reflexivity.
      * destruct (valueToBlock_body _ _ _ _) as [b| | |]; simpl;
          intros H; inversion H; reflexivity.
    + destruct (_ && _).
      * intros H; inversion H; reflexivity.
      * destruct (fieldToAttr _ _ _ _) as [a| | |]; simpl;
          intros H; inversion H; reflexivity.
Qed.

Lemma loop_labels ste t schema fields :
  forall entries labels entries' labels',
    loop ste t schema fields (entries, labels) = Ok (entries', labels') ->
    labels' = (labels ++ List.map (labelOf parseTag t schema)
                           (filter (isLabel parseTag t) fields))%list.
Proof.
  induction fields as [|f rest IH]; intros entries labels entries' labels' H.
  - inversion H; subst. simpl. now rewrite app_nil_r.
  - unfold loop in H. cbn [structToEntries_loop] in H.
    destruct (structToEntries_field _ _ _ ste t schema f (entries, labels))
      as [[es ls]| | |] eqn:Ef; try discriminate H.
    simpl in H. apply IH in H. apply step_labels in Ef. subst.
    simpl. destruct (isLabel parseTag t f); simpl.
    + now rewrite <- app_assoc.
    + now rewrite app_nil_r.
Qed.

(** The entries one turn of the loop appends: Attribute or Block entries
    with the comments of the field's tag; in data mode every Block is the
    encoding of a record. *)
Lemma step_entries ste t schema f entries labels entries' labels' :
  step ste t schema f (entries, labels) = Ok (entries', labels') ->
  exists new,
    entries' = (entries ++ new)%list
    /\ Forall (fun e =>
                 (exists a, e = mkEntry (Some a) None
                                  (tag_comments (parseTag t (field_t f))))
                 \/ (exists b, e = mkEntry None (Some b)
                                      (tag_comments (parseTag t (field_t f)))
                               /\ (schema = false ->
                                   exists el, ste el false
                                              = Ok (Block_Body b, Block_Labels b))))
         new.
Proof.
  unfold step, structToEntries_field.
  destruct (tag_label _).
  - destruct schema; intros H; inversion H; subst; exists [];
      now rewrite app_nil_r.
  - destruct (tag_block _).
    + destruct (reflect.Kind_eqb _ _).
      * destruct schema.
        -- destruct (sliceToBlockSchema _ _) as [block| | |]; simpl;
             intros H; inversion H; subst; eexists; (split; [reflexivity|]).
           ++ constructor; [|constructor]. right. exists block.
              split; [reflexivity|discriminate].
           ++ constructor.
        -- unfold sliceToBlocks_body.
           destruct (field_v f); try discriminate.
           destruct (sliceToBlocks_loop ste elems _ []) as [blocks| | |] eqn:E;
             try discriminate.
           simpl. intros H; inversion H; subst.
           eexists. split; [reflexivity|].
           apply sliceToBlocks_loop_ok in E. destruct E as (new & -> & Hnew).
           simpl. clear -Hnew.
           induction Hnew as [|el b l l' [_ Hb] _ IH]; constructor; [|exact IH].
           right. exists b. split; [reflexivity|]. intros _. now exists el.
      * unfold valueToBlock_body.
        destruct (ste (field_v f) schema) as [[body ls]| | |] eqn:E;
          try discriminate.
        simpl. intros H; inversion H; subst.
        eexists. split; [reflexivity|]. constructor; [|constructor].
        right. eexists. split; [reflexivity|]. intros ->.
        exists (field_v f). exact E.
    + destruct (_ && _).
      * intros H; inversion H; subst. exists []. now rewrite app_nil_r.
      * destruct (fieldToAttr _ _ _ _) as [a| | |]; simpl;
          intros H; inversion H; subst.
        eexists. split; [reflexivity|]. constructor; [|constructor].
        left. now exists a.
Qed.

Lemma taggedUnion_block (b : Block) (comments : list string) :
  taggedUnion (mkEntry None (Some b) comments) = forallb taggedUnion (Block_Body b).
Proof. now destruct b. Qed.

Lemma loop_taggedUnion ste t fields :
  (forall v es ls, ste v false = Ok (es, ls) -> forallb taggedUnion es = true) ->
  forall entries labels entries' labels',
    forallb taggedUnion entries = true ->
    loop ste t false fields (entries, labels) = Ok (entries', labels') ->
    forallb taggedUnion entries' = true.
Proof.
  intros Hste.
  induction fields as [|f rest IH]; intros entries labels entries' labels' Hacc H.
  - now inversion H; subst.
  - unfold loop in H. cbn [structToEntries_loop] in H.
    destruct (structToEntries_field _ _ _ ste t false f (entries, labels))
      as [[es ls]| | |] eqn:Ef; try discriminate H.
    simpl in H. apply IH in H; [exact H|].
    apply step_entries in Ef. destruct Ef as (new & -> & Hnew).
    rewrite forallb_app, Hacc. simpl.
    apply forallb_forall. rewrite Forall_forall in Hnew.
    intros e He. destruct (Hnew e He) as [[a ->]|(b & -> & Hb)]; [reflexivity|].
    rewrite taggedUnion_block. destruct (Hb eq_refl) as [el Hel].
    now apply (Hste el _ _ Hel).
Qed.

Lemma structToEntries_taggedUnion fuel :
  forall v es ls,
    structToEntries flattenFields parseTag sliceToBlockSchema attrSchema fuel v false
    = Ok (es, ls) ->
    forallb taggedUnion es = true.
Proof.
  induction fuel as [|fuel IH]; intros v es ls H; [discriminate H|].
  rewrite structToEntries_unfold in H.
  destruct (flattenFields v) as [fields| | |]; try discriminate H.
  simpl in H. apply (loop_taggedUnion _ _ _ IH [] [] es ls eq_refl H).
Qed.

Lemma taggedUnion_renderable :
  forall b : Block,
    forallb taggedUnion (Block_Body b) = true ->
    forallb renderable (Block_Body b) = true.
Proof.
  induction b as [name labels body IH] using Block_nested_ind. simpl.
  induction IH as [|[a [b|] c] l Hb _ IHl]; [reflexivity| |]; simpl;
    intros H; apply andb_prop in H; destruct H as [He Hl];
    rewrite (IHl Hl), andb_true_r.
  - destruct a; [discriminate|]. destruct b as [n' l' body']. simpl in *.
    now apply (Hb _ eq_refl).
  - now destruct a.
Qed.

Lemma loop_comments ste t schema fields :
  forall entries labels entries' labels',
    loop ste t schema fields (entries, labels) = Ok (entries', labels') ->
    exists new,
      entries' = (entries ++ new)%list
      /\ Forall (fun e => exists f, In f fields
                                    /\ Entry_Comments e
                                       = tag_comments (parseTag t (field_t f)))
           new.
Proof.
  induction fields as [|f rest IH]; intros entries labels entries' labels' H.
  - inversion H; subst. exists []. now rewrite app_nil_r.
  - unfold loop in H. cbn [structToEntries_loop] in H.
    destruct (structToEntries_field _ _ _ ste t schema f (entries, labels))
      as [[es ls]| | |] eqn:Ef; try discriminate H.
    simpl in H. apply IH in H. destruct H as (new2 & -> & Hnew2).
    apply step_entries in Ef. destruct Ef as (new1 & -> & Hnew1).
    exists (new1 ++ new2)%list. split; [now rewrite app_assoc|].
    apply Forall_app. split.
    + eapply Forall_impl; [|exact Hnew1].
      intros e [[a ->]|(b & -> & _)]; exists f; (split; [now left|reflexivity]).
    + eapply Forall_impl; [|exact Hnew2].
      intros e (f' & Hin & He). exists f'. split; [now right|exact He].
Qed.
End StructFacts.

(** ** Data mode and the schema encoders *)

Section DataMode.
Variable flattenFields : reflect.Value -> Result (list field).
Variable parseTag : reflect.Type_ -> StructField -> tag.
Variables sbs sbs' : reflect.Type_ -> tag -> Result Block.
Variables attrs attrs' : reflect.Type_ -> Result Value.

Lemma sliceToBlocks_loop_ext ste ste' tg elems :
  (forall v, ste v false = ste' v false) ->
  forall acc, sliceToBlocks_loop ste elems tg acc = sliceToBlocks_loop ste' elems tg acc.
Proof.
  intros H. induction elems as [|el rest IH]; intros acc; [reflexivity|].
  cbn [sliceToBlocks_loop]. unfold valueToBlock_body. rewrite H.
  destruct (ste' el false) as [[body labels]| | |]; simpl; auto.
Qed.

Lemma step_data_ext ste ste' t f acc :
  (forall v, ste v false = ste' v false) ->
  structToEntries_field parseTag sbs attrs ste t false f acc
  = structToEntries_field parseTag sbs' attrs' ste' t false f acc.
Proof.
  intros H. unfold structToEntries_field. destruct acc as [entries labels].
  destruct (tag_label _); [reflexivity|].
  destruct (tag_block _).
  - destruct (reflect.Kind_eqb _ _).
    + unfold sliceToBlocks_body. destruct (field_v f); try reflexivity.
      now rewrite (sliceToBlocks_loop_ext ste ste' _ _ H).
    + unfold valueToBlock_body. now rewrite H.
  - reflexivity.
Qed.

Lemma loop_data_ext ste ste' t fields :
  (forall v, ste v false = ste' v false) ->
  forall acc,
    structToEntries_loop parseTag sbs attrs ste t false fields acc
    = structToEntries_loop parseTag sbs' attrs' ste' t false fields acc.
Proof.
  intros H. induction fields as [|f rest IH]; intros acc; [reflexivity|].
  cbn [structToEntries_loop]. rewrite (step_data_ext ste ste' t f acc H).
  destruct (structToEntries_field _ _ _ ste' t false f acc); simpl; auto.
Qed.

Lemma structToEntries_data_ext fuel :
  forall v,
    structToEntries flattenFields parseTag sbs attrs fuel v false
    = structToEntries flattenFields parseTag sbs' attrs' fuel v false.
Proof.
  induction fuel as [|fuel IH]; intros v; [reflexivity|].
  rewrite !structToEntries_unfold.
  destruct (flattenFields v) as [fields| | |]; try reflexivity.
  simpl. now apply loop_data_ext.
Qed.

(** X17. Data mode never consults the schema encoders: whatever
    [sliceToBlockSchema] and [attrSchema] are, [MarshalToAST] returns the
    same outcome. *)
Theorem data_mode_ignores_schema_encoders fuel v :
  MarshalToAST flattenFields parseTag sbs attrs fuel v
  = MarshalToAST flattenFields parseTag sbs' attrs' fuel v.
Proof.
  unfold MarshalToAST, marshalToAST.
  destruct (negb _); [reflexivity|].
  destruct v as [[| | | | | | | | |m [s|]|]|]; try reflexivity.
  simpl. destruct (negb _); [reflexivity|].
  now rewrite structToEntries_data_ext.
Qed.
End DataMode.

Lemma encoded_value_has_one_variant_witness :
  exists x, valueToValue (reflect.VMap exMapType false exMapBA) = Ok x
            /\ oneVariant x = true.
Proof.
  eexists. split; [reflexivity|].
  apply (encoded_value_has_one_variant (reflect.VMap exMapType false exMapBA)).
  reflexivity.
Defined.

(** ** The Value Encoder, rule by rule *)

(** X7. A sequence that reaches the sequence rule is encoded element by
    element in order: the list has one Value per element, each the encoding
    of its element, and the presence flag is set; the sequence encodes
    whenever all its elements do. *)
Theorem slice_elements_in_order (m : reflect.meta) (isnil : bool)
  (elems : list reflect.Value) :
  reflect.MarshalText m = None ->
  reflect.MarshalJSON m = None ->
  (forall v, valueToValue (reflect.VSlice m isnil elems) = Ok v ->
     Value_HaveList v = true
     /\ Forall2 (fun el x => valueToValue el = Ok x) elems (Value_List v))
  /\ (Forall (fun el => exists x, valueToValue el = Ok x) elems ->
      exists v, valueToValue (reflect.VSlice m isnil elems) = Ok v).
Proof.
  intros Ht Hj. rewrite valueToValue_VSlice, Ht, Hj. split.
  - intros v.
    destruct (encodeElems valueToValue elems []) as [list| | |] eqn:E;
      try discriminate.
    simpl. intros H; inversion H; subst. split; [reflexivity|].
    apply encodeElems_ok in E. now destruct E as (new & -> & Hnew).
  - intros Hall. destruct (encodeElems_total elems [] Hall) as [list ->].
    now eexists.
Qed.

Lemma slice_elements_in_order_witness :
  exists v, valueToValue exInts = Ok v
            /\ Forall2 (fun el x => valueToValue el = Ok x)
                 [exInt 3; exInt 1; exInt 2] (Value_List v).
Proof.
  eexists. split; [reflexivity|].
  apply (proj1 (slice_elements_in_order (plainMeta "[]int") false
                  [exInt 3; exInt 1; exInt 2] eq_refl eq_refl)).
  reflexivity.
Defined.



(** X9. The text-encoding capability comes before the JSON-encoding one and
    both come before the dispatch on the kind: a value that is not a
    duration and has [MarshalText] is encoded as the [Str] of what the
    method returns, whatever its kind and whether or not it has
    [MarshalJSON], and the method's error is returned as it is; the same for
    [MarshalJSON] when there is no [MarshalText]. *)
Theorem hooks_come_first (v : reflect.Value) :
  reflect.Type_eqb (reflect.Value_Type v) durationType = false ->
  (forall r, implements v textMarshalerInterface = Some r ->
             valueToValue v = (b <- r ;; Ok (Value_ofStr b)))
  /\ (forall r, implements v textMarshalerInterface = None ->
                implements v jsonMarshalerInterface = Some r ->
                valueToValue v = (b <- r ;; Ok (Value_ofStr b))).
Proof.
  intros Hd. split.
  - intros r Ht.
    destruct v; cbn [valueToValue]; rewrite Hd, Ht; reflexivity.
  - intros r Ht Hj.
    destruct v; cbn [valueToValue]; rewrite Hd, Ht, Hj; reflexivity.
Qed.

Lemma hooks_come_first_witness :
  valueToValue exIP = Ok (Value_ofStr "10.0.0.1")
  /\ valueToValue exFailing = Err "sealed".
Proof.
  split.
  - apply (proj1 (hooks_come_first exIP eq_refl) (Ok "10.0.0.1") eq_refl).
  - apply (proj1 (hooks_come_first exFailing eq_refl) (Err "sealed") eq_refl).
Defined.






Lemma integer_below_2_53_is_exact_witness :
  exists n q, valueToValue (exInt (-42)) = Ok (Value_ofNumber n)
              /\ big.Float_Q n = Some q /\ Qeq q (inject_Z (-42)).
Proof.
  apply (integer_below_2_53_is_exact (plainMeta "int") reflect.I0 (-42));
    [reflexivity|reflexivity|reflexivity|lia].
Defined.

Lemma unsigned_below_2_53_is_exact_witness :
  exists n q,
    valueToValue (reflect.VUint (plainMeta "uint8") reflect.I8 255)
    = Ok (Value_ofNumber n)
    /\ big.Float_Q n = Some q /\ Qeq q (inject_Z 255).
Proof.
  apply (unsigned_below_2_53_is_exact (plainMeta "uint8") reflect.I8 255);
    [reflexivity|reflexivity|lia].
Defined.

Lemma Value_String_not_string (v : reflect.Value) :
  reflect.Value_Kind v <> reflect.String ->
  reflect.Value_String v = "<" ++ reflect.tname (reflect.meta_of v) ++ " Value>".
Proof. destruct v; simpl; try reflexivity. now intros H; elim H. Qed.



(** ** The Struct Encoder and the top-level calls *)

Section StructTheorems.
Variable flattenFields : reflect.Value -> Result (list field).
Variable parseTag : reflect.Type_ -> StructField -> tag.
Variable sliceToBlockSchema : reflect.Type_ -> tag -> Result Block.
Variable attrSchema : reflect.Type_ -> Result Value.

Let ste := structToEntries flattenFields parseTag sliceToBlockSchema attrSchema.
Let toAST := MarshalToAST flattenFields parseTag sliceToBlockSchema attrSchema.

(** [MarshalToAST] returns an AST only for a pointer to a record whose
    encoding has no labels, and the AST holds that encoding's entries. *)
Lemma MarshalToAST_ok (fuel : nat) (v : option reflect.Value) (ast : AST) :
  toAST fuel v = Ok ast ->
  exists m s,
    v = Some (reflect.VPtr m (Some s))
    /\ reflect.Value_Kind s = reflect.Struct
    /\ ste fuel s false = Ok (AST_Entries ast, []).
Proof.
  unfold toAST, MarshalToAST, marshalToAST. intros H.
  destruct v as [[m b|m [] i|m [] u|m [] f|m s|m n l|m n l|m l|m z s|m [s|]|m [] z]|];
    simpl in H; try discriminate H.
  destruct (negb (reflect.Kind_eqb (reflect.Value_Kind s) reflect.Struct)) eqn:Es;
    [discriminate H|].
  fold (ste fuel s false) in H.
  destruct (ste fuel s false) as [[entries labels]| | |] eqn:E; try discriminate H.
  simpl in H. destruct labels; simpl in H; [|discriminate H].
  inversion H; subst. exists m, s. simpl. repeat split; [|exact E].
  apply negb_false_iff in Es. now destruct (reflect.Value_Kind s).
Qed.

(** X4. What [MarshalToAST] encodes, [MarshalAST] renders: when the AST is
    returned, [Marshal] returns the rendered bytes and a nil error; the
    renderer's panic for an Entry with neither Block nor Attribute cannot
    happen on an encoded AST. *)
Theorem marshal_renders_what_it_encodes (valueText : Value -> string)
  (fuel : nat) (v : option reflect.Value) (ast : AST) :
  toAST fuel v = Ok ast ->
  Marshal flattenFields parseTag sliceToBlockSchema attrSchema valueText fuel v
  = (fst (MarshalAST valueText ast), Ok tt).
Proof.
  intros H. unfold Marshal. fold (toAST fuel v). rewrite H.
  destruct (MarshalToAST_ok _ _ _ H) as (m & s & _ & _ & Hs).
  apply structToEntries_taggedUnion in Hs.
  apply (taggedUnion_renderable (mkBlock EmptyString [] (AST_Entries ast))) in Hs.
  unfold MarshalAST, MarshalASTToWriter.
  destruct (marshalEntries_writes valueText EmptyString (AST_Entries ast))
    as [out Hout].
  rewrite Hout. unfold renderOutcome. simpl in Hs. now rewrite Hs.
Qed.

(** X5. The entries of an AST that [MarshalToAST] returns are tagged unions
    at every depth: each holds exactly one of Attribute and Block. *)
Theorem encoded_entries_are_tagged_unions (fuel : nat)
  (v : option reflect.Value) (ast : AST) :
  toAST fuel v = Ok ast ->
  forallb taggedUnion (AST_Entries ast) = true.
Proof.
  intros H. destruct (MarshalToAST_ok _ _ _ H) as (m & s & _ & _ & Hs).
  now apply structToEntries_taggedUnion in Hs.
Qed.

(** X15. The labels a record's encoding yields are those of its
    label-classified fields, in the order of the fields: the string of the
    field's value in data mode, the name of the tag in schema mode. *)
Theorem labels_are_the_label_fields (fuel : nat) (v : reflect.Value)
  (schema : bool) (fields : list field) (entries : list Entry)
  (labels : list string) :
  flattenFields v = Ok fields ->
  ste fuel v schema = Ok (entries, labels) ->
  labels = List.map (labelOf parseTag (reflect.Value_Type v) schema)
             (filter (isLabel parseTag (reflect.Value_Type v)) fields).
Proof.
  intros Hf H. destruct fuel as [|fuel]; [discriminate H|].
  unfold ste in H. rewrite structToEntries_unfold, Hf in H. simpl in H.
  now apply loop_labels in H.
Qed.

(** X16. Every Entry of a record's encoding carries the comment lines of
    the tag of one of the record's fields. *)
Theorem entries_carry_field_comments (fuel : nat) (v : reflect.Value)
  (schema : bool) (fields : list field) (entries : list Entry)
  (labels : list string) :
  flattenFields v = Ok fields ->
  ste fuel v schema = Ok (entries, labels) ->
  Forall (fun e => exists f,
              In f fields
              /\ Entry_Comments e
                 = tag_comments (parseTag (reflect.Value_Type v) (field_t f)))
    entries.
Proof.
  intros Hf H. destruct fuel as [|fuel]; [discriminate H|].
  unfold ste in H. rewrite structToEntries_unfold, Hf in H. simpl in H.
  apply loop_comments in H. now destruct H as (new & -> & Hnew).
Qed.

(** X18. The first field that fails stops the encoding: when the fields
    before it encode and the value of a plain attribute field returns an
    error, [MarshalToAST] returns that error, unchanged, and no AST. *)
Theorem first_field_error_aborts (fuel : nat) (m : reflect.meta)
  (s : reflect.Value) (pre rest : list field) (f : field)
  (acc : list Entry * list string) (e : string) :
  reflect.Value_Kind s = reflect.Struct ->
  flattenFields s = Ok (pre ++ f :: rest)%list ->
  structToEntries_loop parseTag sliceToBlockSchema attrSchema (ste fuel)
    (reflect.Value_Type s) false pre ([], []) = Ok acc ->
  tag_label (parseTag (reflect.Value_Type s) (field_t f)) = false ->
  tag_block (parseTag (reflect.Value_Type s) (field_t f)) = false ->
  tag_optional (parseTag (reflect.Value_Type s) (field_t f))
  && reflect.IsZero (field_v f) = false ->
  valueToValue (field_v f) = Err e ->
  toAST (S fuel) (Some (reflect.VPtr m (Some s))) = Err e.
Proof.
  intros Hk Hf Hpre Hl Hb Ho He.
  unfold toAST, MarshalToAST, marshalToAST. cbv zeta.
  cbn [reflect.Kind_of reflect.Value_Kind reflect.Kind_eqb negb reflect.Elem].
  rewrite Hk. cbn [reflect.Kind_eqb negb].
  rewrite structToEntries_unfold, Hf. cbn [bind].
  rewrite loop_app. fold (ste fuel). rewrite Hpre. cbn [bind structToEntries_loop].
  destruct acc as [entries labels].
  unfold structToEntries_field, fieldToAttr. rewrite Hl, Hb, Ho, He. reflexivity.
Qed.

(** X20. In data mode a block field holding a sequence of N records gets N
    sibling Block entries, in order, all named by the tag and carrying the
    field's comments; each Block holds the entries and the labels of its
    own record, and the labels of the enclosing record stay as they
    were. *)
Theorem slice_field_one_block_per_element
  (rec : reflect.Value -> bool -> Result (list Entry * list string))
  (t : reflect.Type_) (f : field) (m : reflect.meta) (isnil : bool)
  (elems : list reflect.Value) (entries entries' : list Entry)
  (labels labels' : list string) :
  tag_label (parseTag t (field_t f)) = false ->
  tag_block (parseTag t (field_t f)) = true ->
  field_v f = reflect.VSlice m isnil elems ->
  structToEntries_field parseTag sliceToBlockSchema attrSchema rec t false f
    (entries, labels) = Ok (entries', labels') ->
  labels' = labels
  /\ exists blocks,
       entries' = (entries ++ List.map
                     (fun b => mkEntry None (Some b)
                                 (tag_comments (parseTag t (field_t f)))) blocks)%list
       /\ Forall2 (fun el b =>
                     Block_Name b = tag_name (parseTag t (field_t f))
                     /\ rec el false = Ok (Block_Body b, Block_Labels b))
            elems blocks.
Proof.
  intros Hl Hb Hv. unfold structToEntries_field. rewrite Hl, Hb, Hv.
  cbn [reflect.Value_Kind reflect.Kind_eqb sliceToBlocks_body].
  destruct (sliceToBlocks_loop rec elems _ []) as [blocks| | |] eqn:E;
    try discriminate.
  simpl. intros H; inversion H; subst. split; [reflexivity|].
  apply sliceToBlocks_loop_ok in E. destruct E as (new & -> & Hnew).
  now exists new.
Qed.

(** X21. [MarshalToAST] returns an AST exactly for a non-nil pointer to a
    record whose encoding succeeds without labels, and the AST then holds
    the entries of that encoding, nothing more. *)
Theorem MarshalToAST_succeeds_iff (fuel : nat) (v : option reflect.Value)
  (ast : AST) :
  toAST fuel v = Ok ast
  <-> exists m s,
        v = Some (reflect.VPtr m (Some s))
        /\ reflect.Value_Kind s = reflect.Struct
        /\ ste fuel s false = Ok (AST_Entries ast, []).
Proof.
  split; [apply MarshalToAST_ok|].
  intros (m & s & -> & Hk & Hs).
  unfold toAST, MarshalToAST, marshalToAST. cbv zeta.
  cbn [reflect.Kind_of reflect.Value_Kind reflect.Kind_eqb negb reflect.Elem].
  rewrite Hk. cbn [reflect.Kind_eqb negb]. fold (ste fuel s false).
  rewrite Hs. now destruct ast.
Qed.

(** X22. In data mode the label of a label-classified field is
    [field.v.String()]: the string itself for a field of kind String, of a
    named type or not, and [<T Value>] for a field of any other type [T];
    the field gets no Entry. *)
Theorem label_is_the_value_string
  (rec : reflect.Value -> bool -> Result (list Entry * list string))
  (t : reflect.Type_) (f : field) (entries : list Entry) (labels : list string) :
  tag_label (parseTag t (field_t f)) = true ->
  (forall m s, field_v f = reflect.VString m s ->
     structToEntries_field parseTag sliceToBlockSchema attrSchema rec t false f
       (entries, labels) = Ok (entries, (labels ++ [s])%list))
  /\ (reflect.Value_Kind (field_v f) <> reflect.String ->
      structToEntries_field parseTag sliceToBlockSchema attrSchema rec t false f
        (entries, labels)
      = Ok (entries,
            (labels ++ [("<" ++ reflect.tname (reflect.meta_of (field_v f))
                             ++ " Value>")%string])%list)).
Proof.
  intros Hl. unfold structToEntries_field. rewrite Hl. split.
  - intros m s ->. reflexivity.
  - intros Hk. now rewrite Value_String_not_string.
Qed.
End StructTheorems.

Lemma label_is_the_value_string_witness :
  structToEntries_field wordTag noBlockSchema noAttrSchema
    (structToEntries (fieldsOf []) wordTag noBlockSchema noAttrSchema 1)
    (reflect.Value_Type exStruct) false (exField "Port" "label" (exInt 80))
    ([], [])
  = Ok ([], ["<int Value>"]).
Proof.
  apply (proj2 (label_is_the_value_string wordTag noBlockSchema noAttrSchema
                  (structToEntries (fieldsOf []) wordTag noBlockSchema
                     noAttrSchema 1)
                  (reflect.Value_Type exStruct)
                  (exField "Port" "label" (exInt 80)) [] [] eq_refl)).
  discriminate.
Defined.

Lemma marshal_renders_what_it_encodes_witness :
  exists ast,
    MarshalToAST (fieldsByType exThingTable) wordTag noBlockSchema noAttrSchema
      2 exRecord = Ok ast
    /\ Marshal (fieldsByType exThingTable) wordTag noBlockSchema noAttrSchema
         Value_text 2 exRecord
       = (fst (MarshalAST Value_text ast), Ok tt).
Proof.
  eexists. split; [reflexivity|].
  apply (marshal_renders_what_it_encodes (fieldsByType exThingTable) wordTag
           noBlockSchema noAttrSchema Value_text 2 exRecord).
  reflexivity.
Defined.

Lemma encoded_entries_are_tagged_unions_witness :
  exists ast,
    MarshalToAST (fieldsByType exThingTable) wordTag noBlockSchema noAttrSchema
      2 exRecord = Ok ast
    /\ forallb taggedUnion (AST_Entries ast) = true.
Proof.
  eexists. split; [reflexivity|].
  apply (encoded_entries_are_tagged_unions (fieldsByType exThingTable) wordTag
           noBlockSchema noAttrSchema 2 exRecord).
  reflexivity.
Defined.

Lemma labels_are_the_label_fields_witness :
  exists entries labels,
    structToEntries (fieldsByType exThingTable) wordTag noBlockSchema
      noAttrSchema 1 exThing false = Ok (entries, labels)
    /\ labels = List.map (labelOf wordTag (reflect.Value_Type exThing) false)
                  (filter (isLabel wordTag (reflect.Value_Type exThing))
                     exThingFields)
    /\ labels = ["x"].
Proof.
  do 2 eexists. split; [reflexivity|]. split; [|reflexivity].
  apply (labels_are_the_label_fields (fieldsByType exThingTable) wordTag
           noBlockSchema noAttrSchema 1 exThing false exThingFields _ _
           eq_refl eq_refl).
Defined.

Lemma entries_carry_field_comments_witness :
  exists entries labels,
    structToEntries (fieldsOf exItemsFields) commentTag noBlockSchema
      noAttrSchema 2 exStruct false = Ok (entries, labels)
    /\ List.map Entry_Comments entries = [["// k"]; ["// items"]; ["// items"]]
    /\ Forall (fun e => exists f,
                 In f exItemsFields
                 /\ Entry_Comments e
                    = tag_comments (commentTag (reflect.Value_Type exStruct)
                                      (field_t f)))
         entries.
Proof.
  do 2 eexists. split; [reflexivity|]. split; [reflexivity|].
  apply (entries_carry_field_comments (fieldsOf exItemsFields) commentTag
           noBlockSchema noAttrSchema 2 exStruct false exItemsFields _ _
           eq_refl eq_refl).
Defined.

Lemma first_field_error_aborts_witness :
  MarshalToAST (fieldsOf exSealedFields) wordTag noBlockSchema noAttrSchema 2
    exRecord
  = Err "sealed".
Proof.
  apply (first_field_error_aborts (fieldsOf exSealedFields) wordTag
           noBlockSchema noAttrSchema 1 (plainMeta "*main.T") exStruct
           [exField "k" EmptyString (exInt 1)]
           [exField "z" EmptyString (exInt 2)]
           (exField "secret" EmptyString exFailing)
           ([mkEntry (Some (mkAttribute "k"
                              (Value_ofNumber
                                 (big.mkFloat 53 false big.finite (2 ^ 63) 1))))
               None []], [])
           "sealed");
    reflexivity.
Defined.

Lemma top_level_label_field_is_error_witness :
  MarshalToAST (fieldsOf exThingFields) wordTag noBlockSchema noAttrSchema 2
    exRecord
  <> Ok (mkAST []).
Proof.
  apply (top_level_label_field_is_error (fieldsOf exThingFields) wordTag
           noBlockSchema noAttrSchema 2 (plainMeta "*main.T") exStruct
           exThingFields (mkAST []) eq_refl eq_refl).
  left. reflexivity.
Defined.

Lemma slice_field_one_block_per_element_witness :
  exists entries',
    structToEntries_field wordTag noBlockSchema noAttrSchema
      (structToEntries (fieldsOf []) wordTag noBlockSchema noAttrSchema 1)
      (reflect.Value_Type exStruct) false (exField "items" "block" exInners)
      ([], []) = Ok (entries', [])
    /\ exists blocks,
         entries' = List.map (fun b => mkEntry None (Some b) []) blocks
         /\ List.map Block_Name blocks = ["items"; "items"].
Proof.
  eexists. split; [reflexivity|].
  destruct (slice_field_one_block_per_element wordTag noBlockSchema noAttrSchema
              (structToEntries (fieldsOf []) wordTag noBlockSchema noAttrSchema 1)
              (reflect.Value_Type exStruct) (exField "items" "block" exInners)
              (plainMeta "[]main.Inner") false [exInner; exInner] [] _ [] []
              eq_refl eq_refl eq_refl eq_refl) as (_ & blocks & Hb & _).
  eexists. split; reflexivity.
Defined.
